(** * core-js-101, 05-objects-tasks.js: Rectangle, getJSON/fromJSON and the
      CSS selector builder, embedded and checked against their specification. *)

From Stdlib Require Import ZArith List Bool Lia Sorted Floats.
From Stdlib Require String.
From stdpp Require Import base list strings sorting.

Local Open Scope list_scope.
Local Open Scope Z_scope.

(** ** The fragment of JavaScript the source relies on *)

Module JS.

(** What [throw new Error(message)] raises, and the [TypeError] the engine
    raises when a method is looked up on something that is not there. *)
Inductive exn : Type :=
| Error (message : string)
| TypeError.

(** The completion of a call: a normal return or a thrown exception. *)
Inductive completion (A : Type) : Type :=
| Normal (a : A)
| Throw (e : exn).
Arguments Normal {A} a.
Arguments Throw {A} e.

(** The values [this.selectors] holds: a string, or an array of strings. *)
Inductive value : Type :=
| Str (s : string)
| Arr (items : list string).

(** An object with string keys: its own properties in insertion order. *)
Definition object : Type := list (string * value).

Definition hasOwnProperty (o : object) (k : string) : bool :=
  existsb (fun p => String.eqb (fst p) k) o.

Definition keys (o : object) : list string := map fst o.

Definition values (o : object) : list value := map snd o.

Fixpoint get (o : object) (k : string) : option value :=
  match o with
  | [] => None
  | (k', v) :: o' => if String.eqb k' k then Some v else get o' k
  end.

(** [o[k] = v], also the last step of [{ ...o, k: v }]: an existing key keeps
    its place, a new key goes last. *)
Fixpoint set (o : object) (k : string) (v : value) : object :=
  match o with
  | [] => [(k, v)]
  | (k', v') :: o' =>
      if String.eqb k' k then (k', v) :: o' else (k', v') :: set o' k v
  end.

(** [array.includes(x)] *)
Definition includes (l : list string) (x : string) : bool :=
  existsb (String.eqb x) l.

(** [array.indexOf(x)]: the first index of [x], or -1. *)
Fixpoint indexOf_from (i : Z) (l : list string) (x : string) : Z :=
  match l with
  | [] => -1
  | y :: l' => if String.eqb y x then i else indexOf_from (i + 1) l' x
  end.

Definition indexOf (l : list string) (x : string) : Z := indexOf_from 0 l x.

(** [array.some((item, index) => f(item, index))] *)
Fixpoint some_from (f : string -> Z -> bool) (i : Z) (l : list string) : bool :=
  match l with
  | [] => false
  | x :: l' => f x i || some_from f (i + 1) l'
  end.

Definition some (f : string -> Z -> bool) (l : list string) : bool :=
  some_from f 0 l.

(** [array.flat()] on an array whose items are strings or arrays of strings. *)
Definition flat (vs : list value) : list string :=
  List.concat (map (fun v => match v with Str s => [s] | Arr items => items end) vs).

(** [array.join(sep)] on an array of strings. *)
Definition join (sep : string) (l : list string) : string := String.concat sep l.

End JS.

Import JS.

(** ** Rectangle, getJSON and fromJSON *)

Module JSON.

(** The values a rectangle-like object holds, and those [JSON.parse] can
    give back for it. A number is an IEEE 754 double. *)
Inductive jsval : Type :=
| Undefined
| Null
| Number (x : float).

(** An object: its own properties in insertion order (the keys at hand,
    [width] and [height], are not array indices, which would come first). *)
Definition obj : Type := list (string * jsval).

(** What an operand of [*] is converted to. *)
Definition ToNumber (v : jsval) : float :=
  match v with
  | Undefined => nan
  | Null => 0
  | Number x => x
  end.

(** A JSON text, by what is written in it: the members of an object in the
    order they are written, each value being [null] or a number literal,
    given by the double it denotes. [JSON.stringify] writes a finite number
    with the digits that read back as the same double. *)
Inductive literal : Type :=
| LNull
| LNumber (x : float).

Definition text : Type := list (string * literal).

(** The number literal, or [null], that [JSON.stringify] writes for a
    number: [null] for NaN and the infinities, [0] for both zeros. *)
Definition write_number (x : float) : literal :=
  match classify x with
  | FloatClass.NaN | PInf | NInf => LNull
  | NZero => LNumber 0
  | _ => LNumber x
  end.

(** [JSON.stringify(o)]: a property holding [undefined] is left out. *)
Fixpoint stringify (o : obj) : text :=
  match o with
  | [] => []
  | (k, Undefined) :: o' => stringify o'
  | (k, Null) :: o' => (k, LNull) :: stringify o'
  | (k, Number x) :: o' => (k, write_number x) :: stringify o'
  end.

(** [JSON.parse(text)] *)
Definition parse (t : text) : obj :=
  map (fun m => (fst m, match snd m with LNull => Null | LNumber x => Number x end)) t.

End JSON.

(** [function Rectangle(width, height)], called with [new] on a list of
    arguments: a missing argument is [undefined]. *)
Record Rectangle : Type := {
  width : JSON.jsval;
  height : JSON.jsval
}.

Definition new_Rectangle (args : list JSON.jsval) : Rectangle :=
  {| width := nth 0 args JSON.Undefined; height := nth 1 args JSON.Undefined |}.

Definition getArea (this : Rectangle) : float :=
  (JSON.ToNumber (width this) * JSON.ToNumber (height this))%float.

(** A prototype, as far as [fromJSON] uses it: its [constructor]. *)
Record prototype (T : Type) : Type := {
  constructor : list JSON.jsval -> T
}.
Arguments constructor {T} _ _.

Definition Rectangle_prototype : prototype Rectangle :=
  {| constructor := new_Rectangle |}.

Definition getJSON (obj : JSON.obj) : JSON.text := JSON.stringify obj.

(** [Object.values(o)] *)
Definition Object_values (o : JSON.obj) : list JSON.jsval := map snd o.

Definition fromJSON {T} (proto : prototype T) (json : JSON.text) : T :=
  let obj := JSON.parse json in
  let values := Object_values obj in
  constructor proto values.

(** The own properties of a Rectangle, in the order the constructor assigns
    them; [getArea] is on the prototype. *)
Definition own_properties (r : Rectangle) : JSON.obj :=
  [("width", width r); ("height", height r)].

(** ** class CssBuilder *)

Module CssBuilder.

(** The fields a method can change. The constructor also sets [names],
    [combinationString], [repeatError] and [positionError]; no method assigns
    them, so they are the constants below. *)
Record t : Type := mk {
  selectors : object;
  complex : list string
}.

Definition names : list string :=
  ["element"; "id"; "class"; "attr"; "pseudoClass"; "pseudoElement"].

(** The message of the repetition error (DuplicateFragmentError in the
    specification). *)
Definition repeatError : string :=
  "Element, id and pseudo-element should not occur more then one time inside the selector".

(** The message of the order error (OrderError in the specification). *)
Definition positionError : string :=
  "Selector parts should be arranged in the following order: element, id, class, attribute, pseudo-class, pseudo-element".

(** [new CssBuilder()] *)
Definition new : t := {| selectors := []; complex := [] |}.

(** A method body runs on [this]: it returns the updated [this] together with
    its completion, so what was assigned before a [throw] stays assigned. *)
Definition M (A : Type) : Type := t -> t * completion A.

Definition ret {A} (a : A) : M A := fun this => (this, Normal a).

Definition throw {A} (e : exn) : M A := fun this => (this, Throw e).

Definition bind {A B} (k : A -> M B) (m : M A) : M B :=
  fun this =>
    match m this with
    | (this', Normal a) => k a this'
    | (this', Throw e) => (this', Throw e)
    end.

#[global] Instance M_ret : MRet M := @ret.
#[global] Instance M_bind : MBind M := @bind.

Definition set_selectors (f : object -> object) : M unit :=
  fun this => ({| selectors := f (selectors this); complex := complex this |}, Normal tt).

Definition checkValue (string : string) : M unit :=
  fun this =>
    if hasOwnProperty (selectors this) string
    then throw (Error repeatError) this
    else ret tt this.

Definition checkPosition : M unit :=
  fun this =>
    let keys := keys (selectors this) in
    let currentPosition := List.filter (fun selector => includes keys selector) names in
    if some (fun selector index => index >? indexOf currentPosition selector) keys
    then throw (Error positionError) this
    else ret tt this.

Definition isSelector (string : string) : M unit :=
  fun this =>
    if negb (hasOwnProperty (selectors this) string)
    then set_selectors (fun o => set o string (Arr [])) this
    else ret tt this.

(** [this.selectors[key].push(item)] *)
Definition push (key : string) (item : string) : M unit :=
  fun this =>
    match get (selectors this) key with
    | Some (Arr items) =>
        set_selectors (fun o => set o key (Arr (items ++ [item]))) this
    | _ => throw TypeError this
    end.

Definition element (value : string) : M unit :=
  checkValue "element" ;;
  set_selectors (fun o => set o "element" (Str value)) ;;
  checkPosition.

Definition id (value : string) : M unit :=
  checkValue "id" ;;
  set_selectors (fun o => set o "id" (Str ("#" +:+ value))) ;;
  checkPosition.

Definition class (value : string) : M unit :=
  isSelector "class" ;;
  push "class" ("." +:+ value) ;;
  checkPosition.

Definition attr (value : string) : M unit :=
  isSelector "attr" ;;
  push "attr" ("[" +:+ value +:+ "]") ;;
  checkPosition.

Definition pseudoClass (value : string) : M unit :=
  isSelector "pseudoClass" ;;
  push "pseudoClass" (":" +:+ value) ;;
  checkPosition.

Definition pseudoElement (value : string) : M unit :=
  checkValue "pseudoElement" ;;
  set_selectors (fun o => set o "pseudoElement" (Str ("::" +:+ value))) ;;
  checkPosition.

(** [combine] once its two operands have been stringified. *)
Definition combine_text (text1 combination text2 : string) : M unit :=
  fun this =>
    ({| selectors := selectors this;
        complex := complex this ++ [text1 +:+ " " +:+ combination +:+ " " +:+ text2] |},
     Normal tt).

Definition stringify (this : t) : string :=
  if (0 <? Z.of_nat (List.length (complex this)))
  then join "" (complex this)
  else join "" (flat (values (selectors this))).

End CssBuilder.

(** The six fragment methods, to name a call in a sequence of calls. *)
Inductive method : Type :=
| Element | Id | Class | Attr | PseudoClass | PseudoElement.

#[global] Instance method_eq_dec : EqDecision method.
Proof. solve_decision. Defined.

Definition body (m : method) (value : string) : CssBuilder.M unit :=
  match m with
  | Element => CssBuilder.element value
  | Id => CssBuilder.id value
  | Class => CssBuilder.class value
  | Attr => CssBuilder.attr value
  | PseudoClass => CssBuilder.pseudoClass value
  | PseudoElement => CssBuilder.pseudoElement value
  end.

(** What the body of each method fixes: the key of [this.selectors] it
    writes, the text it stores there for [value], whether it is guarded by
    [checkValue] (and stores one string) or goes through [isSelector] (and
    pushes on an array), and the place of its key in [this.names]. *)
Definition key (m : method) : string :=
  match m with
  | Element => "element"
  | Id => "id"
  | Class => "class"
  | Attr => "attr"
  | PseudoClass => "pseudoClass"
  | PseudoElement => "pseudoElement"
  end.

Definition rendered (m : method) (value : string) : string :=
  match m with
  | Element => value
  | Id => "#" +:+ value
  | Class => "." +:+ value
  | Attr => "[" +:+ value +:+ "]"
  | PseudoClass => ":" +:+ value
  | PseudoElement => "::" +:+ value
  end.

Definition singular (m : method) : bool :=
  match m with
  | Element | Id | PseudoElement => true
  | Class | Attr | PseudoClass => false
  end.

Definition rank (m : method) : nat :=
  match m with
  | Element => 0
  | Id => 1
  | Class => 2
  | Attr => 3
  | PseudoClass => 4
  | PseudoElement => 5
  end.

(** A chain [b.m1(v1).m2(v2)...] on one builder: a [throw] ends it. *)
Fixpoint chain (calls : list (method * string)) : CssBuilder.M unit :=
  match calls with
  | [] => mret tt
  | (m, value) :: calls' => body m value ;; chain calls'
  end.

(** ** Builders as objects *)

(** Builders are objects with identity: every method returns [this], and
    [combine] reads two other builders. The store holds every builder made
    so far; a reference is its index. *)
Abbreviation ref := nat (only parsing).
Abbreviation store := (list CssBuilder.t) (only parsing).

Module Obj.

Definition H (A : Type) : Type := store -> store * completion A.

Definition ret {A} (a : A) : H A := fun st => (st, Normal a).

Definition bind {A B} (k : A -> H B) (c : H A) : H B :=
  fun st =>
    match c st with
    | (st', Normal a) => k a st'
    | (st', Throw e) => (st', Throw e)
    end.

#[global] Instance H_ret : MRet H := @ret.
#[global] Instance H_bind : MBind H := @bind.

(** [new CssBuilder()] *)
Definition new : H ref :=
  fun st => (st ++ [CssBuilder.new], Normal (List.length st)).

(** Run a method body on the builder [this] refers to and return [this]. *)
Definition invoke (this : ref) (m : CssBuilder.M unit) : H ref :=
  fun st =>
    match st !! this with
    | None => (st, Throw TypeError)
    | Some b =>
        match m b with
        | (b', Normal _) => (<[this := b']> st, Normal this)
        | (b', Throw e) => (<[this := b']> st, Throw e)
        end
    end.

Definition element (this : ref) (value : string) : H ref :=
  invoke this (CssBuilder.element value).
Definition id (this : ref) (value : string) : H ref :=
  invoke this (CssBuilder.id value).
Definition class (this : ref) (value : string) : H ref :=
  invoke this (CssBuilder.class value).
Definition attr (this : ref) (value : string) : H ref :=
  invoke this (CssBuilder.attr value).
Definition pseudoClass (this : ref) (value : string) : H ref :=
  invoke this (CssBuilder.pseudoClass value).
Definition pseudoElement (this : ref) (value : string) : H ref :=
  invoke this (CssBuilder.pseudoElement value).

Definition stringify (this : ref) : H string :=
  fun st =>
    match st !! this with
    | None => (st, Throw TypeError)
    | Some b => (st, Normal (CssBuilder.stringify b))
    end.

(** The template literal is evaluated first, then pushed on [this.complex]. *)
Definition combine (this item1 : ref) (combination : string) (item2 : ref) : H ref :=
  text1 ← stringify item1;
  text2 ← stringify item2;
  invoke this (CssBuilder.combine_text text1 combination text2).

Definition call (this : ref) (m : method) (value : string) : H ref :=
  invoke this (body m value).

End Obj.

(** ** The facade *)

Module cssSelectorBuilder.

Definition element (value : string) : Obj.H ref :=
  this ← Obj.new; Obj.element this value.
Definition id (value : string) : Obj.H ref :=
  this ← Obj.new; Obj.id this value.
Definition class (value : string) : Obj.H ref :=
  this ← Obj.new; Obj.class this value.
Definition attr (value : string) : Obj.H ref :=
  this ← Obj.new; Obj.attr this value.
Definition pseudoClass (value : string) : Obj.H ref :=
  this ← Obj.new; Obj.pseudoClass this value.
Definition pseudoElement (value : string) : Obj.H ref :=
  this ← Obj.new; Obj.pseudoElement this value.
Definition combine (item1 : ref) (combination : string) (item2 : ref) : Obj.H ref :=
  this ← Obj.new; Obj.combine this item1 combination item2.

Definition call (m : method) (value : string) : Obj.H ref :=
  this ← Obj.new; Obj.call this m value.

End cssSelectorBuilder.

(** [this.m1(v1).m2(v2)...]: each method is called on what the one before
    returned. *)
Fixpoint chain_on (this : ref) (calls : list (method * string)) : Obj.H ref :=
  match calls with
  | [] => mret this
  | (m, value) :: calls' => this' ← Obj.call this m value; chain_on this' calls'
  end.

(** [cssSelectorBuilder.m(value).m1(v1).m2(v2)...stringify()] *)
Definition facade_chain (m : method) (value : string)
    (calls : list (method * string)) : Obj.H string :=
  this ← cssSelectorBuilder.call m value;
  this' ← chain_on this calls;
  Obj.stringify this'.

(** ** Programs over the facade *)

(** What a caller can do: a facade call, or a method call on a builder it
    holds. *)
Inductive call : Type :=
| FCall (m : method) (value : string)
| FCombine (item1 : ref) (combination : string) (item2 : ref)
| MCall (this : ref) (m : method) (value : string)
| MCombine (this item1 : ref) (combination : string) (item2 : ref).

Definition exec (c : call) : Obj.H ref :=
  match c with
  | FCall m value => cssSelectorBuilder.call m value
  | FCombine item1 combination item2 => cssSelectorBuilder.combine item1 combination item2
  | MCall this m value => Obj.call this m value
  | MCombine this item1 combination item2 => Obj.combine this item1 combination item2
  end.

(** The builder a call is made on, when it is a method call. *)
Definition receiver (c : call) : option ref :=
  match c with
  | FCall _ _ | FCombine _ _ _ => None
  | MCall this _ _ | MCombine this _ _ _ => Some this
  end.

(** The store after a sequence of calls, the caller going on after a throw. *)
Definition run (calls : list call) (st : store) : store :=
  fold_left (fun st c => fst (exec c st)) calls st.

(** The text [combine] pushes. *)
Definition combined (text1 combination text2 : string) : string :=
  text1 +:+ " " +:+ combination +:+ " " +:+ text2.

(** What a method call on [r] returns: [r], or what the body threw. *)
Definition returning {A} (r : ref) (c : completion A) : completion ref :=
  match c with
  | Normal _ => Normal r
  | Throw e => Throw e
  end.

(** What a call does to the store: a facade call adds one builder after
    the others and returns a reference to it; a method call replaces the
    builder it is made on and returns the reference it was made on; a method
    call on something that is not a builder, or with such an operand, throws
    and leaves the store as it was. *)
Inductive effect (st : store) (c : call) : store -> completion ref -> Prop :=
| effect_made b res :
    receiver c = None ->
    (forall r, res = Normal r -> r = length st) ->
    effect st c (st ++ [b]) res
| effect_changed r b b' res :
    receiver c = Some r -> st !! r = Some b ->
    (forall r', res = Normal r' -> r' = r) ->
    effect st c (<[r := b']> st) res
| effect_none r e :
    receiver c = Some r ->
    effect st c st (Throw e).

(** The example in the comment above the class: three nested [combine]
    calls. *)
Definition reference_example : Obj.H string :=
  a ← cssSelectorBuilder.element "div";
  a ← Obj.id a "main";
  a ← Obj.class a "container";
  a ← Obj.class a "draggable";
  b ← cssSelectorBuilder.element "table";
  b ← Obj.id b "data";
  c ← cssSelectorBuilder.element "tr";
  c ← Obj.pseudoClass c "nth-of-type(even)";
  d ← cssSelectorBuilder.element "td";
  d ← Obj.pseudoClass d "nth-of-type(even)";
  e ← cssSelectorBuilder.combine c " " d;
  f ← cssSelectorBuilder.combine b "~" e;
  g ← cssSelectorBuilder.combine a "+" f;
  Obj.stringify g.

(** ** Everything a builder can go through *)

(** What can be done to one builder: a fragment method, or [combine] with
    the texts of its two operands. *)
Inductive op : Type :=
| Frag (m : method) (value : string)
| Comb (text1 combination text2 : string).

(** The builder after the operation, whether it returned or threw. *)
Definition apply_op (o : op) (this : CssBuilder.t) : CssBuilder.t :=
  match o with
  | Frag m value => fst (body m value this)
  | Comb text1 combination text2 =>
      fst (CssBuilder.combine_text text1 combination text2 this)
  end.

Definition apply_ops (ops : list op) (this : CssBuilder.t) : CssBuilder.t :=
  fold_left (fun b o => apply_op o b) ops this.

(** The states a builder can be in. *)
Inductive built : CssBuilder.t -> Prop :=
| built_new : built CssBuilder.new
| built_op o this : built this -> built (apply_op o this).

(** ** Notions the statements use *)

(** The test of [checkPosition], on the keys of [this.selectors]. *)
Definition misplaced (ns keys : list string) : bool :=
  some (fun selector index =>
          index >? indexOf (List.filter (fun selector => includes keys selector) ns) selector)
       keys.

(** The keys of the repeatable methods hold arrays. *)
Definition shaped (o : object) : Prop :=
  forall m v, singular m = false -> get o (key m) = Some v -> exists items, v = Arr items.

(** Nothing combined yet, and the keys are among the first [r] names, in
    the order of [names]. *)
Definition tidy (r : nat) (this : CssBuilder.t) : Prop :=
  CssBuilder.complex this = [] /\
  sublist (keys (CssBuilder.selectors this)) (take r CssBuilder.names) /\
  shaped (CssBuilder.selectors this).

(** [m'] may be called after [m]: it is of a later kind, or of the same kind
    when that kind is repeatable. *)
Definition later (m m' : method) : Prop :=
  (rank m < rank m')%nat \/ (m = m' /\ singular m = false).

#[global] Instance later_dec m m' : Decision (later m m').
Proof. unfold later. apply _. Defined.

(** A sequence of insertions respects the canonical order when every call
    may be made after all the calls before it. *)
Definition respects_order (calls : list (method * string)) : Prop :=
  StronglySorted (fun c c' => later (fst c) (fst c')) calls.

#[global] Instance respects_order_dec calls : Decision (respects_order calls).
Proof. unfold respects_order. apply _. Defined.

(** The texts the calls of kind [m] store, in the order of the calls. *)
Definition fragments (m : method) (calls : list (method * string)) : list string :=
  map (fun c => rendered (fst c) (snd c))
      (List.filter (fun c => bool_decide (fst c = m)) calls).

(** Kind after kind in the canonical order, the fragments of each kind in
    the order they were inserted. *)
Definition canonical (calls : list (method * string)) : list string :=
  List.concat (map (fun m => fragments m calls)
                   [Element; Id; Class; Attr; PseudoClass; PseudoElement]).

(** What [this.selectors] holds under the key of [m] once the fragments
    [fs] have been added by [m]. *)
Definition stored (m : method) (fs : list string) : option value :=
  match fs with
  | [] => None
  | f :: _ => Some (if singular m then Str f else Arr fs)
  end.

(** The builder holds the fragments of [calls], kind by kind, and has passed
    [checkPosition]. *)
Definition holds (calls : list (method * string)) (this : CssBuilder.t) : Prop :=
  CssBuilder.complex this = [] /\
  NoDup (keys (CssBuilder.selectors this)) /\
  (forall k, k ∈ keys (CssBuilder.selectors this) -> exists m, k = key m) /\
  misplaced CssBuilder.names (keys (CssBuilder.selectors this)) = false /\
  forall m,
    get (CssBuilder.selectors this) (key m) = stored m (fragments m calls) /\
    (singular m = true -> (length (fragments m calls) <= 1)%nat).

(** The keys of the calls, each at the place of its first call: what
    [Object.keys(this.selectors)] is after them. *)
Definition first_keys (calls : list (method * string)) : list string :=
  fold_left (fun ks c => if includes ks (key (fst c)) then ks else ks ++ [key (fst c)])
            calls [].

(** Neither NaN nor an infinity. *)
Definition finite (x : float) : bool :=
  match classify x with
  | FloatClass.NaN | PInf | NInf => false
  | _ => true
  end.

(** The double that comes back for a finite one: itself, or 0 for -0. *)
Definition read_back (x : float) : float :=
  match classify x with
  | NZero => 0%float
  | _ => x
  end.

(** * Proofs *)

(** ** Facts about objects and arrays *)

Section object_facts.

Implicit Types (o : object) (k : string) (v : value) (l : list string).

Lemma includes_elem_of l k : includes l k = true <-> k ∈ l.
Proof.
  unfold includes. rewrite existsb_exists, list_elem_of_In. split.
  - intros (y & Hy & E). apply String.eqb_eq in E. by subst.
  - intros Hk. exists k. split; [done | apply String.eqb_refl].
Qed.

Lemma hasOwnProperty_elem_of o k : hasOwnProperty o k = true <-> k ∈ keys o.
Proof.
  unfold hasOwnProperty, keys. rewrite existsb_exists, list_elem_of_In, in_map_iff.
  split.
  - intros (p & Hp & E). apply String.eqb_eq in E. by exists p.
  - intros (p & E & Hp). exists p. split; [done | by apply String.eqb_eq].
Qed.

Lemma hasOwnProperty_false o k : hasOwnProperty o k = false <-> k ∉ keys o.
Proof.
  rewrite <- hasOwnProperty_elem_of. by destruct (hasOwnProperty o k).
Qed.

Lemma hasOwnProperty_app o1 o2 k :
  hasOwnProperty (o1 ++ o2) k = hasOwnProperty o1 k || hasOwnProperty o2 k.
Proof. apply existsb_app. Qed.

Lemma set_absent o k v : hasOwnProperty o k = false -> set o k v = (o ++ [(k, v)])%list.
Proof.
  induction o as [|[k' v'] o IH]; simpl; [done|].
  intros H. apply orb_false_elim in H as [H1 H2]. rewrite H1. by rewrite IH.
Qed.

Lemma set_last o k v0 v :
  hasOwnProperty o k = false -> set (o ++ [(k, v0)]) k v = (o ++ [(k, v)])%list.
Proof.
  induction o as [|[k' v'] o IH]; simpl.
  - by rewrite String.eqb_refl.
  - intros H. apply orb_false_elim in H as [H1 H2]. rewrite H1. by rewrite IH.
Qed.

Lemma get_last o k v : hasOwnProperty o k = false -> get (o ++ [(k, v)]) k = Some v.
Proof.
  induction o as [|[k' v'] o IH]; simpl.
  - by rewrite String.eqb_refl.
  - intros H. apply orb_false_elim in H as [H1 H2]. by rewrite H1, IH.
Qed.

Lemma keys_set o k v :
  keys (set o k v) = if hasOwnProperty o k then keys o else keys o ++ [k].
Proof.
  induction o as [|[k' v'] o IH]; simpl; [done|].
  destruct (String.eqb k' k) eqn:E; simpl; [done|].
  rewrite IH. by destruct (hasOwnProperty o k).
Qed.

Lemma get_set o k v k' :
  get (set o k v) k' = if String.eqb k k' then Some v else get o k'.
Proof.
  induction o as [|[k0 v0] o IH]; simpl.
  - done.
  - destruct (String.eqb k0 k) eqn:E; simpl.
    + apply String.eqb_eq in E. subst k0. by destruct (String.eqb k k').
    + rewrite IH. destruct (String.eqb k0 k') eqn:E'; [|done].
      apply String.eqb_eq in E'. subst k0. by rewrite String.eqb_sym, E.
Qed.

Lemma get_Some_has o k v : get o k = Some v -> hasOwnProperty o k = true.
Proof.
  induction o as [|[k0 v0] o IH]; simpl; [done|].
  destruct (String.eqb k0 k); [done|]. apply IH.
Qed.

Lemma has_get_Some o k : hasOwnProperty o k = true -> exists v, get o k = Some v.
Proof.
  induction o as [|[k0 v0] o IH]; simpl; [done|].
  destruct (String.eqb k0 k); simpl; eauto.
Qed.

Lemma hasOwnProperty_set o k v k' :
  hasOwnProperty (set o k v) k' = String.eqb k k' || hasOwnProperty o k'.
Proof.
  destruct (hasOwnProperty (set o k v) k') eqn:E.
  - apply has_get_Some in E as [w E]. rewrite get_set in E.
    destruct (String.eqb k k'); [done|]. simpl. symmetry. by eapply get_Some_has.
  - destruct (String.eqb k k') eqn:E1; simpl.
    + assert (get (set o k v) k' = Some v) as G by (by rewrite get_set, E1).
      apply get_Some_has in G. congruence.
    + destruct (hasOwnProperty o k') eqn:E2; [|done].
      apply has_get_Some in E2 as [w E2].
      assert (get (set o k v) k' = Some w) as G by (by rewrite get_set, E1).
      apply get_Some_has in G. congruence.
Qed.

Lemma flat_app (vs1 vs2 : list value) : flat (vs1 ++ vs2) = flat vs1 ++ flat vs2.
Proof. unfold flat. by rewrite map_app, concat_app. Qed.

Lemma values_app o1 o2 : values (o1 ++ o2) = values o1 ++ values o2.
Proof. apply map_app. Qed.

Lemma keys_app o1 o2 : keys (o1 ++ o2) = keys o1 ++ keys o2.
Proof. apply map_app. Qed.

Lemma string_app_cons c (s1 s2 : string) : String c s1 +:+ s2 = String c (s1 +:+ s2).
Proof. reflexivity. Qed.

Lemma string_app_assoc (s1 s2 s3 : string) :
  (s1 +:+ s2) +:+ s3 = s1 +:+ (s2 +:+ s3).
Proof.
  induction s1 as [|c s1 IH]; [done|]. by rewrite !string_app_cons, IH.
Qed.

Lemma string_app_nil_r (s : string) : s +:+ "" = s.
Proof. induction s as [|c s IH]; [done|]. by rewrite string_app_cons, IH. Qed.

Lemma join_cons (s : string) l : join "" (s :: l) = s +:+ join "" l.
Proof.
  unfold join. destruct l as [|s' l]; simpl; [|done].
  by rewrite string_app_nil_r.
Qed.

Lemma join_app l1 l2 : join "" (l1 ++ l2) = join "" l1 +:+ join "" l2.
Proof.
  induction l1 as [|s l1 IH]; [done|].
  change ((s :: l1) ++ l2)%list with (s :: (l1 ++ l2))%list.
  by rewrite !join_cons, IH, string_app_assoc.
Qed.

Lemma join_singleton (s : string) : join "" [s] = s.
Proof. done. Qed.

(** [some] finds an item exactly when one of the indexed tests succeeds. *)
Lemma some_from_true f i l :
  some_from f i l = true <->
  exists (j : nat) x, l !! j = Some x /\ f x (i + Z.of_nat j) = true.
Proof.
  revert i. induction l as [|y l IH]; intros i; simpl.
  - split; [done | by intros (j & x & H & _)].
  - rewrite orb_true_iff, IH. split.
    + intros [H | (j & x & Hj & H)].
      * exists 0%nat, y. by rewrite Z.add_0_r.
      * exists (S j), x. split; [done|].
        by replace (i + Z.of_nat (S j)) with (i + 1 + Z.of_nat j) by lia.
    + intros ([|j] & x & Hj & H).
      * left. simpl in Hj. injection Hj as ->. by rewrite Z.add_0_r in H.
      * right. exists j, x. split; [done|].
        by replace (i + 1 + Z.of_nat j) with (i + Z.of_nat (S j)) by lia.
Qed.

Lemma some_true f l :
  some f l = true <-> exists (j : nat) x, l !! j = Some x /\ f x (Z.of_nat j) = true.
Proof. unfold some. by rewrite some_from_true. Qed.

Lemma indexOf_from_shift i l k :
  k ∈ l -> indexOf_from i l k = i + indexOf l k.
Proof.
  unfold indexOf. revert i. induction l as [|y l IH]; intros i Hk; simpl.
  - by apply elem_of_nil in Hk.
  - destruct (String.eqb y k) eqn:E; [lia|].
    apply String.eqb_neq in E. apply elem_of_cons in Hk as [->|Hk]; [done|].
    rewrite (IH (i + 1)), (IH (0 + 1)) by done. lia.
Qed.

Lemma indexOf_app_r l1 l2 k :
  k ∉ l1 -> indexOf (l1 ++ k :: l2) k = Z.of_nat (List.length l1).
Proof.
  induction l1 as [|y l1 IH]; intros Hk.
  - unfold indexOf. simpl. by rewrite String.eqb_refl.
  - apply not_elem_of_cons in Hk as [Hne Hk].
    unfold indexOf. simpl. apply not_eq_sym, String.eqb_neq in Hne. rewrite Hne.
    rewrite indexOf_from_shift by (apply elem_of_app; right; left).
    rewrite IH by done. simpl List.length. lia.
Qed.

Lemma indexOf_lookup l (j : nat) k :
  NoDup l -> l !! j = Some k -> indexOf l k = Z.of_nat j.
Proof.
  intros ND Hj. apply list_elem_of_split_length in Hj as (l1 & l2 & -> & ->).
  apply indexOf_app_r. apply NoDup_app in ND as (_ & ND & _).
  intros Hk. apply (ND k Hk). left.
Qed.

End object_facts.

(** ** What checkPosition accepts *)

Lemma filter_sublist (ns ks : list string) :
  NoDup ns -> sublist ks ns ->
  List.filter (fun selector => includes ks selector) ns = ks.
Proof.
  intros ND Hsub.
  induction Hsub as [|x l1 l2 Hsub IH|x l1 l2 Hsub IH].
  - done.
  - apply NoDup_cons in ND as [Hx ND]. simpl.
    unfold includes at 1. simpl. rewrite String.eqb_refl. simpl. f_equal.
    etransitivity; [|exact (IH ND)]. apply filter_ext_in. intros y Hy.
    unfold includes. simpl. apply list_elem_of_In in Hy.
    destruct (String.eqb_spec y x) as [->|_]; [done | done].
  - apply NoDup_cons in ND as [Hx ND]. simpl.
    destruct (includes l1 x) eqn:E; [|by apply IH].
    apply includes_elem_of in E. exfalso. apply Hx.
    by eapply elem_of_sublist.
Qed.

Section position.

Variable ns : list string.
Hypothesis ns_NoDup : NoDup ns.

(** Keys that follow the order of [ns] pass the test. *)
Lemma sublist_not_misplaced ks : sublist ks ns -> misplaced ns ks = false.
Proof.
  intros Hsub. unfold misplaced. rewrite (filter_sublist _ _ ns_NoDup Hsub).
  destruct (some _ ks) eqn:E; [|done].
  apply some_true in E as (j & x & Hj & E).
  rewrite (indexOf_lookup ks j x) in E; [lia | | done].
  by eapply sublist_NoDup; [exact ns_NoDup|].
Qed.

(** A new key that comes, in [ns], before a key already there fails it. *)
Lemma snoc_misplaced pre post ks k k' :
  ns = pre ++ k :: post -> NoDup ks -> k ∉ ks -> k' ∈ ks -> k' ∈ post ->
  misplaced ns (ks ++ [k]) = true.
Proof.
  intros -> NDks Hk Hk' Hpost.
  apply NoDup_app in ns_NoDup as (NDpre & Hdisj & NDpost).
  apply NoDup_cons in NDpost as [Hkpost NDpost].
  assert (k ∉ pre) as Hkpre by (intros H; apply (Hdisj _ H); left).
  assert (k' ∉ pre) as Hk'pre by (intros H; apply (Hdisj _ H); by right).
  unfold misplaced. apply some_true. exists (List.length ks), k. split.
  { by rewrite lookup_app_r, Nat.sub_diag. }
  set (f := fun selector => includes (ks ++ [k]) selector).
  rewrite List.filter_app. simpl.
  assert (f k = true) as -> by (apply includes_elem_of, elem_of_app; right; left).
  rewrite indexOf_app_r.
  2:{ intros H. apply list_elem_of_In, filter_In in H as [H _].
      by apply list_elem_of_In in H. }
  assert (k' :: List.filter f pre ⊆+ ks) as Hlen.
  { apply NoDup_submseteq.
    - apply NoDup_cons. split.
      + intros H. apply list_elem_of_In, filter_In in H as [H _].
        by apply list_elem_of_In in H.
      + by apply NoDup_ListNoDup, List.NoDup_filter, NoDup_ListNoDup.
    - intros y Hy. apply elem_of_cons in Hy as [->|Hy]; [done|].
      apply list_elem_of_In, filter_In in Hy as [Hy Hf].
      apply list_elem_of_In in Hy.
      apply includes_elem_of, elem_of_app in Hf as [Hf|Hf]; [done|].
      apply list_elem_of_singleton in Hf. by subst y. }
  apply submseteq_length in Hlen. simpl in Hlen. lia.
Qed.

Lemma indexOf_found l k :
  k ∈ l -> exists i : nat, l !! i = Some k /\ indexOf l k = Z.of_nat i.
Proof.
  intros Hk. induction l as [|y l IH]; [by apply elem_of_nil in Hk|].
  unfold indexOf. simpl. destruct (String.eqb_spec y k) as [->|Hne].
  - by exists 0%nat.
  - apply elem_of_cons in Hk as [->|Hk]; [done|].
    destruct (IH Hk) as (i & Hi & Hidx). exists (S i). split; [done|].
    rewrite indexOf_from_shift by done. lia.
Qed.

(** Keys that pass the test are in the order of [ns]: no key may stand
    later than its place, so each stands at its place. *)
Lemma not_misplaced_sorted ks :
  NoDup ks -> (forall k, k ∈ ks -> k ∈ ns) -> misplaced ns ks = false ->
  List.filter (fun selector => includes ks selector) ns = ks.
Proof.
  intros NDks Hsub Hmis. unfold misplaced in Hmis.
  set (cp := List.filter (fun selector => includes ks selector) ns) in *.
  assert (forall x, x ∈ cp <-> x ∈ ks) as Hmem.
  { intros x. unfold cp. rewrite list_elem_of_In, filter_In, <- list_elem_of_In.
    rewrite includes_elem_of. split; [by intros [_ H] | intros H; split; auto]. }
  assert (NoDup cp) as NDcp
    by (by apply NoDup_ListNoDup, List.NoDup_filter, NoDup_ListNoDup).
  assert (length cp = length ks) as Hlen
    by (by apply Permutation_length, NoDup_Permutation).
  assert (forall (j : nat) x, ks !! j = Some x ->
            exists i : nat, cp !! i = Some x /\ (j <= i)%nat) as Hplace.
  { intros j x Hj.
    destruct (indexOf_found cp x) as (i & Hi & Hidx).
    { apply Hmem. by eapply list_elem_of_lookup_2. }
    exists i. split; [done|].
    destruct (decide (j <= i)%nat) as [|Hgt]; [done|]. exfalso.
    assert (some (fun selector index => index >? indexOf cp selector) ks = true) as Hs.
    { apply some_true. exists j, x. split; [done|]. rewrite Hidx. lia. }
    congruence. }
  assert (forall d j : nat, (j + d = length ks)%nat ->
            forall j' : nat, (j <= j')%nat -> cp !! j' = ks !! j') as Hsame.
  { induction d as [|d IH]; intros j Hj j' Hle.
    - rewrite !lookup_ge_None_2; [done | lia | lia].
    - destruct (decide (j = j')) as [<-|Hne]; [|apply (IH (S j)); lia].
      destruct (lookup_lt_is_Some_2 ks j) as [x Hx]; [lia|].
      destruct (Hplace j x Hx) as (i & Hi & Hji).
      destruct (decide (i = j)) as [->|Hne]; [congruence|].
      rewrite (IH (S j)) in Hi by lia.
      pose proof (NoDup_lookup _ _ _ _ NDks Hi Hx). lia. }
  apply list_eq. intros i. apply (Hsame (length ks) 0%nat); lia.
Qed.

End position.

(** ** The method bodies, run *)

Section bodies.

Import CssBuilder.

Lemma names_NoDup : NoDup names.
Proof. apply (bool_decide_unpack (NoDup names)). by vm_compute. Qed.

Lemma names_rank m : names !! rank m = Some (key m).
Proof. by destruct m. Qed.

Lemma rank_inj m m' : rank m = rank m' -> m = m'.
Proof. by destruct m, m'. Qed.

Lemma key_inj m m' : key m = key m' -> m = m'.
Proof. by destruct m, m'. Qed.

Lemma checkPosition_eq this :
  checkPosition this =
  (this, if misplaced names (keys (selectors this))
         then Throw (Error positionError) else Normal tt).
Proof.
  unfold checkPosition, misplaced.
  by destruct (some _ (keys (selectors this))).
Qed.

(** After the guard, a singular method stores its text and checks the order. *)
Lemma body_singular m value this :
  singular m = true ->
  body m value this =
  if hasOwnProperty (selectors this) (key m)
  then (this, Throw (Error repeatError))
  else
    let this' := {| selectors := set (selectors this) (key m) (Str (rendered m value));
                    complex := complex this |} in
    (this', if misplaced names (keys (selectors this'))
            then Throw (Error positionError) else Normal tt).
Proof.
  intros Hs.
  destruct m; try discriminate Hs; simpl;
    unfold element, id, pseudoElement, mbind, M_bind, bind, checkValue;
    (destruct (hasOwnProperty (selectors this) _); [done|]);
    simpl; by rewrite checkPosition_eq.
Qed.

(** A repeatable method makes sure the array is there, pushes, and checks
    the order. *)
Lemma body_repeatable m value this :
  singular m = false ->
  body m value this =
  let o := if hasOwnProperty (selectors this) (key m)
           then selectors this
           else set (selectors this) (key m) (Arr []) in
  match get o (key m) with
  | Some (Arr items) =>
      let this' := {| selectors := set o (key m) (Arr (items ++ [rendered m value]));
                      complex := complex this |} in
      (this', if misplaced names (keys (selectors this'))
              then Throw (Error positionError) else Normal tt)
  | _ => ({| selectors := o; complex := complex this |}, Throw TypeError)
  end.
Proof.
  intros Hs.
  destruct m; try discriminate Hs; simpl;
    unfold class, attr, pseudoClass, mbind, M_bind, bind, isSelector, push;
    destruct this as [o cx]; simpl;
    (destruct (hasOwnProperty o _); simpl);
    (match goal with |- context [get ?a ?b] => destruct (get a b) as [[|]|] end);
    simpl; try done; by rewrite checkPosition_eq.
Qed.

(** No fragment method touches [complex]. *)
Lemma body_complex m value this : complex (fst (body m value this)) = complex this.
Proof.
  destruct (singular m) eqn:Hs.
  - rewrite body_singular by done. by destruct (hasOwnProperty _ _).
  - rewrite body_repeatable by done. simpl.
    by destruct (get _ _) as [[|]|].
Qed.

End bodies.

(** ** Builders whose keys follow the order of [names] *)

Section tidy.

Import CssBuilder.

Lemma tidy_new : tidy 0 new.
Proof.
  split; [done|]. split; [constructor|]. intros m v _ H. discriminate H.
Qed.

Lemma key_not_before m : key m ∉ take (rank m) names.
Proof.
  intros (i & Hi & Hlt)%elem_of_take.
  pose proof (NoDup_lookup _ _ _ _ names_NoDup Hi (names_rank m)). lia.
Qed.

Lemma sublist_take_le (ks : list string) (r n : nat) :
  (r <= n)%nat -> sublist ks (take r names) -> sublist ks (take n names).
Proof.
  intros Hle Hsub. etransitivity; [exact Hsub|].
  replace (take r names) with (take r (take n names)).
  - apply sublist_take.
  - rewrite take_take. f_equal. lia.
Qed.

Lemma sublist_snoc_key (ks : list string) m :
  sublist ks (take (rank m) names) ->
  sublist (ks ++ [key m]) (take (S (rank m)) names).
Proof.
  intros Hsub. rewrite (take_S_r _ _ _ (names_rank m)).
  by apply sublist_app.
Qed.

(** Among the first [rank m + 1] names, the key of [m] can only be last. *)
Lemma sublist_upto_key (ks : list string) m :
  sublist ks (take (S (rank m)) names) ->
  ((key m ∉ ks) /\ sublist ks (take (rank m) names)) \/
  (exists ks', ks = ks' ++ [key m] /\ (key m ∉ ks') /\ sublist ks' (take (rank m) names)).
Proof.
  rewrite (take_S_r _ _ _ (names_rank m)).
  intros (l1 & l2 & -> & H1 & H2)%sublist_app_r.
  assert (key m ∉ l1) as Hl1.
  { intros H. eapply key_not_before, elem_of_sublist; eauto. }
  apply sublist_cons_r in H2 as [H2 | (l' & -> & H2)];
    apply sublist_nil_r in H2 as ->.
  - left. by rewrite app_nil_r.
  - right. by exists l1.
Qed.

Lemma keys_snoc_inv (o : object) (ks : list string) k :
  keys o = ks ++ [k] -> exists o' v, o = o' ++ [(k, v)] /\ keys o' = ks.
Proof.
  unfold keys. intros (o' & o2 & -> & H1 & H2)%map_eq_app.
  apply map_eq_cons in H2 as ([k0 v] & tl & -> & Hk & Htl).
  apply map_eq_nil in Htl as ->. simpl in Hk. subst k0. by exists o', v.
Qed.

Lemma stringify_plain this :
  complex this = [] -> stringify this = join "" (flat (values (selectors this))).
Proof. unfold stringify. by intros ->. Qed.

Lemma tidy_checked r this :
  tidy r this -> misplaced names (keys (selectors this)) = false.
Proof.
  intros (_ & Hsub & _). apply sublist_not_misplaced; [exact names_NoDup|].
  etransitivity; [exact Hsub | apply sublist_take].
Qed.

Lemma shaped_set (o : object) m v :
  shaped o -> (singular m = false -> exists items, v = Arr items) ->
  shaped (set o (key m) v).
Proof.
  intros Ho Hv m' v' Hm'. rewrite get_set.
  destruct (String.eqb_spec (key m) (key m')) as [E|_].
  - apply key_inj in E as ->. intros [= <-]. by apply Hv.
  - by apply Ho.
Qed.

(** A call of a later kind, or of the last kind when it is repeatable,
    returns normally and adds its text at the end of the rendering. *)
Lemma body_tidy r m value this :
  tidy r this ->
  (if singular m then r <= rank m else r <= S (rank m))%nat ->
  exists this',
    body m value this = (this', Normal tt) /\
    tidy (S (rank m)) this' /\
    stringify this' = stringify this +:+ rendered m value.
Proof.
  intros (Hcx & Hsub & Hsh) Hr. destruct this as [o cx]. simpl in *. subst cx.
  destruct (singular m) eqn:Hs.
  - (* one string under a new key *)
    assert (sublist (keys o) (take (rank m) names)) as Hsub'
      by (by eapply sublist_take_le).
    assert (hasOwnProperty o (key m) = false) as Hno.
    { apply hasOwnProperty_false. intros H.
      eapply key_not_before, elem_of_sublist; eauto. }
    rewrite body_singular by done. simpl. rewrite Hno.
    set (this' := {| selectors := set o (key m) (Str (rendered m value)); complex := [] |}).
    assert (tidy (S (rank m)) this') as Ht.
    { split; [done|]. simpl. split.
      - rewrite keys_set, Hno. by apply sublist_snoc_key.
      - apply shaped_set; [done | congruence]. }
    exists this'. split; [|split; [done|]].
    + pose proof (tidy_checked _ _ Ht) as Hc. unfold this' in *. simpl in *.
      by rewrite Hc.
    + rewrite !stringify_plain by done. simpl.
      rewrite set_absent by done.
      by rewrite values_app, flat_app, join_app.
  - (* one more string in the array under the last key, or under a new one *)
    apply (sublist_take_le _ _ (S (rank m))) in Hsub; [|done].
    rewrite body_repeatable by done. simpl.
    destruct (sublist_upto_key _ _ Hsub) as [[Hno Hsub'] | (ks' & Hks & Hno & Hsub')].
    + apply hasOwnProperty_false in Hno. rewrite Hno.
      rewrite get_set, String.eqb_refl.
      set (this' := {| selectors := set (set o (key m) (Arr [])) (key m)
                                        (Arr ([] ++ [rendered m value]));
                       complex := [] |}).
      assert (tidy (S (rank m)) this') as Ht.
      { split; [done|]. simpl. split.
        - rewrite (set_absent o), set_last, keys_app by done.
          by apply sublist_snoc_key.
        - apply shaped_set; eauto. apply shaped_set; eauto. }
      exists this'. split; [|split; [done|]].
      * pose proof (tidy_checked _ _ Ht) as Hc. unfold this' in *. simpl in *.
      by rewrite Hc.
      * rewrite !stringify_plain by done. simpl.
        rewrite (set_absent o), set_last by done.
        by rewrite values_app, flat_app, join_app.
    + apply keys_snoc_inv in Hks as (o' & v0 & -> & <-).
      apply hasOwnProperty_false in Hno.
      assert (hasOwnProperty (o' ++ [(key m, v0)]) (key m) = true) as ->.
      { rewrite hasOwnProperty_app, Hno. simpl. by rewrite String.eqb_refl. }
      rewrite get_last by done.
      destruct (Hsh m v0 Hs) as [items ->]; [by apply get_last|].
      set (this' := {| selectors := set (o' ++ [(key m, Arr items)]) (key m)
                                        (Arr (items ++ [rendered m value]));
                       complex := [] |}).
      assert (tidy (S (rank m)) this') as Ht.
      { split; [done|]. simpl. split.
        - rewrite set_last, keys_app by done. by apply sublist_snoc_key.
        - apply shaped_set; eauto. }
      exists this'. split; [|split; [done|]].
      * pose proof (tidy_checked _ _ Ht) as Hc. unfold this' in *. simpl in *.
      by rewrite Hc.
      * rewrite !stringify_plain by done. simpl. rewrite set_last by done.
        rewrite !values_app, !flat_app. unfold flat at 2 4. simpl.
        rewrite !app_nil_r, !join_app. by rewrite string_app_assoc.
Qed.

End tidy.

(** ** Sequences of calls in the canonical order *)

Section canonical_order.

Import CssBuilder.

Lemma chain_cons m value calls this :
  chain ((m, value) :: calls) this =
  match body m value this with
  | (this', Normal _) => chain calls this'
  | (this', Throw e) => (this', Throw e)
  end.
Proof. reflexivity. Qed.

Lemma chain_tidy calls : forall r this,
  tidy r this ->
  Forall (fun c => if singular (fst c) then r <= rank (fst c)
                   else r <= S (rank (fst c)))%nat calls ->
  respects_order calls ->
  exists this',
    chain calls this = (this', Normal tt) /\
    stringify this' =
      stringify this +:+ join "" (map (fun c => rendered (fst c) (snd c)) calls).
Proof.
  induction calls as [|[m value] calls IH]; intros r this Ht Hr Hord.
  - exists this. split; [done|]. by rewrite string_app_nil_r.
  - apply Forall_cons in Hr as [Hm _].
    apply StronglySorted_inv in Hord as [Hord Hlater].
    destruct (body_tidy r m value this Ht Hm) as (this1 & Hb & Ht1 & Hs1).
    destruct (IH (S (rank m)) this1 Ht1) as (this' & Hc & Hs'); [|done|].
    { apply Forall_forall. intros [m' v'] Hin.
      rewrite List.Forall_forall in Hlater.
      apply list_elem_of_In, Hlater in Hin. simpl in *.
      destruct Hin as [Hlt | [<- Hrep]].
      - destruct (singular m'); lia.
      - by rewrite Hrep. }
    exists this'. rewrite chain_cons, Hb. split; [done|].
    rewrite Hs', Hs1. simpl map. by rewrite join_cons, string_app_assoc.
Qed.

Lemma fragments_cons m' m value calls :
  fragments m' ((m, value) :: calls) =
  if bool_decide (m = m') then rendered m value :: fragments m' calls
  else fragments m' calls.
Proof. unfold fragments. simpl. by destruct (bool_decide (m = m')). Qed.

Lemma fragments_below m m' calls :
  List.Forall (fun c => rank m <= rank (fst c))%nat calls ->
  (rank m' < rank m)%nat -> fragments m' calls = [].
Proof.
  intros Hall Hlt. unfold fragments.
  induction Hall as [|[m0 v0] calls Hm0 _ IH]; [done|]. simpl in *.
  rewrite bool_decide_eq_false_2; [done|]. intros ->. lia.
Qed.

Lemma canonical_cons m value calls :
  List.Forall (fun c => rank m <= rank (fst c))%nat calls ->
  canonical ((m, value) :: calls) = rendered m value :: canonical calls.
Proof.
  intros Hall. unfold canonical. simpl. rewrite !fragments_cons.
  destruct m; simpl;
    repeat (rewrite (fragments_below _ _ _ Hall) by (simpl; lia));
    done.
Qed.

(** In a sequence that respects the order, the canonical arrangement is the
    order of the calls. *)
Lemma canonical_sorted calls :
  respects_order calls -> canonical calls = map (fun c => rendered (fst c) (snd c)) calls.
Proof.
  induction calls as [|[m value] calls IH]; intros Hord; [done|].
  apply StronglySorted_inv in Hord as [Hord Hlater].
  simpl. rewrite canonical_cons, IH; [done | done |].
  eapply List.Forall_impl; [|exact Hlater].
  intros [m' v']. simpl. intros [Hlt | [<- _]]; lia.
Qed.

End canonical_order.

(** A chain in the canonical order goes through on a new builder, and
    renders as the texts of its calls, in the order of the calls. *)
Lemma chain_new_tidy (calls : list (method * string)) :
  respects_order calls ->
  exists this,
    chain calls CssBuilder.new = (this, Normal tt) /\
    CssBuilder.stringify this =
      join "" (map (fun c => rendered (fst c) (snd c)) calls).
Proof.
  intros Hord.
  destruct (chain_tidy calls 0%nat CssBuilder.new tidy_new) as (this & Hc & Hs);
    [|done|by exists this].
  apply Forall_forall. intros [m v] _. simpl. destruct (singular m); lia.
Qed.

(** C1. Every sequence of fragment insertions that respects the canonical
    order (element, id, class, attribute, pseudo-class, pseudo-element; a
    repeatable kind any number of times in a row) goes through on a new
    builder without a throw, and [stringify()] then returns the texts of the
    fragments joined without any separator, kind after kind in the canonical
    order and, within a kind, in the order of insertion; for such a sequence
    this is the order of the calls. *)
Theorem stringify_canonical (calls : list (method * string)) :
  respects_order calls ->
  exists this,
    chain calls CssBuilder.new = (this, Normal tt) /\
    CssBuilder.stringify this = join "" (canonical calls) /\
    canonical calls = map (fun c => rendered (fst c) (snd c)) calls.
Proof.
  intros Hord.
  destruct (chain_new_tidy calls Hord) as (this & Hc & Hs).
  pose proof (canonical_sorted calls Hord) as Hcan.
  exists this. split; [exact Hc|]. split; [|exact Hcan].
  by rewrite Hcan.
Qed.

(** [builder.id('main').class('container').class('editable').stringify()] *)
Lemma stringify_canonical_witness :
  respects_order [(Id, "main"); (Class, "container"); (Class, "editable")] /\
  exists this,
    chain [(Id, "main"); (Class, "container"); (Class, "editable")] CssBuilder.new
      = (this, Normal tt) /\
    CssBuilder.stringify this = "#main.container.editable".
Proof.
  assert (respects_order [(Id, "main"); (Class, "container"); (Class, "editable")]) as H
    by (by apply (bool_decide_unpack _)).
  split; [exact H|].
  destruct (stringify_canonical _ H) as (this & Hc & Hs & _).
  exists this. split; [exact Hc|]. rewrite Hs. reflexivity.
Defined.

(** ** The states of a builder *)

Section builders.

Import CssBuilder.

Lemma body_selectors_singular m value this :
  singular m = true ->
  selectors (fst (body m value this)) =
  if hasOwnProperty (selectors this) (key m) then selectors this
  else set (selectors this) (key m) (Str (rendered m value)).
Proof.
  intros Hs. rewrite body_singular by done.
  by destruct (hasOwnProperty _ _).
Qed.

Lemma built_ops ops this : built this -> built (apply_ops ops this).
Proof.
  revert this. induction ops as [|o ops IH]; intros this Hb; [done|].
  simpl. apply IH. by constructor.
Qed.

Lemma set_keys_NoDup (o : object) k v : NoDup (keys o) -> NoDup (keys (set o k v)).
Proof.
  intros ND. rewrite keys_set. destruct (hasOwnProperty o k) eqn:E; [done|].
  apply NoDup_app. split; [done|]. split; [|apply NoDup_singleton].
  intros x Hx ->%list_elem_of_singleton. by apply hasOwnProperty_false in E.
Qed.

(** An object has each of its keys once, and the arrays are where the
    repeatable methods expect them. *)
Lemma built_wf this :
  built this -> NoDup (keys (selectors this)) /\ shaped (selectors this).
Proof.
  induction 1 as [|[m value|t1 c t2] this Hb [ND Hsh]].
  - split; [constructor|]. intros m v _ H. discriminate H.
  - simpl. destruct (singular m) eqn:Hs.
    + rewrite body_selectors_singular by done.
      destruct (hasOwnProperty _ _); [done|]. split.
      * by apply set_keys_NoDup.
      * apply shaped_set; [done | congruence].
    + rewrite body_repeatable by done. simpl.
      set (o := if hasOwnProperty (selectors this) (key m) then selectors this
                else set (selectors this) (key m) (Arr [])).
      assert (NoDup (keys o) /\ shaped o) as [NDo Hsho].
      { unfold o. destruct (hasOwnProperty _ _); [done|]. split.
        - by apply set_keys_NoDup.
        - apply shaped_set; eauto. }
      destruct (get o (key m)) as [[s|items]|]; simpl; [done| |done].
      split; [by apply set_keys_NoDup | apply shaped_set; eauto].
  - done.
Qed.

(** On a builder, a repeatable method never meets anything but its array. *)
Lemma body_repeatable_built m value this :
  built this -> singular m = false ->
  exists items,
    body m value this =
    (let this' := {| selectors := set (selectors this) (key m) (Arr (items ++ [rendered m value]));
                     complex := complex this |} in
     (this', if misplaced names (keys (selectors this'))
             then Throw (Error positionError) else Normal tt)) /\
    (if hasOwnProperty (selectors this) (key m)
     then get (selectors this) (key m) = Some (Arr items)
     else items = []).
Proof.
  intros Hb Hs. apply built_wf in Hb as [_ Hsh].
  rewrite body_repeatable by done. simpl.
  destruct (hasOwnProperty (selectors this) (key m)) eqn:E.
  - apply has_get_Some in E as [v Hv].
    destruct (Hsh m v Hs Hv) as [items ->]. rewrite Hv. by exists items.
  - rewrite get_set, String.eqb_refl. exists []. split; [|done]. simpl.
    assert (forall o k v1 v2, set (set o k v1) k v2 = set o k v2) as Hss.
    { clear. intros o k v1 v2. induction o as [|[k' v'] o IH]; simpl.
      - by rewrite String.eqb_refl.
      - destruct (String.eqb k' k) eqn:E; simpl; rewrite E; [done | by rewrite IH]. }
    by rewrite !Hss.
Qed.

End builders.

Create HintDb builder.
#[global] Hint Constructors built : builder.
#[global] Hint Resolve built_ops : builder.

(** ** Every chain the builder accepts *)

Section accepted.

Import CssBuilder.

Lemma chain_app calls1 calls2 this :
  chain (calls1 ++ calls2) this =
  match chain calls1 this with
  | (this', Normal _) => chain calls2 this'
  | (this', Throw e) => (this', Throw e)
  end.
Proof.
  revert this. induction calls1 as [|[m value] calls1 IH]; intros this; [done|].
  change (((m, value) :: calls1) ++ calls2) with ((m, value) :: (calls1 ++ calls2)).
  rewrite !chain_cons. destruct (body m value this) as [this1 [[]|e]]; [apply IH | done].
Qed.

Lemma fragments_app m calls1 calls2 :
  fragments m (calls1 ++ calls2) = fragments m calls1 ++ fragments m calls2.
Proof. unfold fragments. by rewrite List.filter_app, map_app. Qed.

Lemma set_set (o : object) k v1 v2 : set (set o k v1) k v2 = set o k v2.
Proof.
  induction o as [|[k' v'] o IH]; simpl.
  - by rewrite String.eqb_refl.
  - destruct (String.eqb k' k) eqn:E; simpl; rewrite E; [done | by rewrite IH].
Qed.

Lemma get_None_has (o : object) k : get o k = None <-> hasOwnProperty o k = false.
Proof.
  split.
  - intros H. destruct (hasOwnProperty o k) eqn:E; [|done].
    apply has_get_Some in E as [v E]. congruence.
  - intros H. destruct (get o k) as [v|] eqn:E; [|done].
    apply get_Some_has in E. congruence.
Qed.

Lemma stored_None m fs : stored m fs = None -> fs = [].
Proof. by destruct fs. Qed.

Lemma keys_are_names (this : t) k :
  (forall k, k ∈ keys (selectors this) -> exists m, k = key m) ->
  k ∈ keys (selectors this) -> k ∈ names.
Proof.
  intros Hk Hin. destruct (Hk k Hin) as [m ->].
  eapply list_elem_of_lookup_2, names_rank.
Qed.

(** One more accepted call keeps the account of the fragments. *)
Lemma body_holds calls m value this this' :
  holds calls this -> body m value this = (this', Normal tt) ->
  holds (calls ++ [(m, value)]) this'.
Proof.
  intros (Hcx & ND & Hkeys & _ & Hget) Hbody.
  destruct (Hget m) as [Hm Hone].
  assert (forall m', m' <> m ->
            fragments m' (calls ++ [(m, value)]) = fragments m' calls) as Hother.
  { intros m' Hne. rewrite fragments_app, fragments_cons.
    rewrite bool_decide_eq_false_2 by done. apply app_nil_r. }
  assert (fragments m (calls ++ [(m, value)]) =
          fragments m calls ++ [rendered m value]) as Hthis.
  { rewrite fragments_app, fragments_cons. by rewrite bool_decide_eq_true_2. }
  destruct (singular m) eqn:Hs.
  - rewrite body_singular in Hbody by done.
    destruct (hasOwnProperty (selectors this) (key m)) eqn:Hhas; [done|].
    simpl in Hbody.
    destruct (misplaced names _) eqn:Hmis; [done|]. injection Hbody as <-.
    apply get_None_has in Hhas. rewrite Hhas in Hm. symmetry in Hm.
    apply stored_None in Hm.
    split; [done|]. simpl. split; [by apply set_keys_NoDup|]. split.
    { intros k. rewrite keys_set.
      destruct (hasOwnProperty _ _); [apply Hkeys|].
      intros [Hk| ->%list_elem_of_singleton]%elem_of_app; [by apply Hkeys | by exists m]. }
    split; [done|]. intros m'. rewrite get_set.
    destruct (String.eqb_spec (key m) (key m')) as [->%key_inj|Hne].
    + rewrite Hthis, Hm. simpl. rewrite Hs. split; [done | lia].
    + rewrite Hother by congruence. apply Hget.
  - rewrite body_repeatable in Hbody by done. simpl in Hbody.
    set (o := if hasOwnProperty (selectors this) (key m) then selectors this
              else set (selectors this) (key m) (Arr [])) in *.
    assert (get o (key m) = Some (Arr (fragments m calls)) /\
            set o (key m) (Arr (fragments m calls ++ [rendered m value])) =
            set (selectors this) (key m) (Arr (fragments m calls ++ [rendered m value])))
      as [Ho Hset].
    { unfold o. destruct (hasOwnProperty (selectors this) (key m)) eqn:Hhas.
      - split; [|done]. rewrite Hm. unfold stored.
        destruct (fragments m calls) as [|f fs] eqn:Hfs; [|by rewrite Hs].
        apply has_get_Some in Hhas as [v Hv]. rewrite Hm in Hv. done.
      - apply get_None_has in Hhas. rewrite Hhas in Hm. symmetry in Hm.
        apply stored_None in Hm. rewrite Hm, get_set, String.eqb_refl.
        split; [done|]. apply set_set. }
    rewrite Ho in Hbody. rewrite Hset in Hbody.
    destruct (misplaced names _) eqn:Hmis; [done|]. injection Hbody as <-.
    split; [done|]. simpl. split; [by apply set_keys_NoDup|]. split.
    { intros k. rewrite keys_set.
      destruct (hasOwnProperty _ _); [apply Hkeys|].
      intros [Hk| ->%list_elem_of_singleton]%elem_of_app; [by apply Hkeys | by exists m]. }
    split; [done|]. intros m'. rewrite get_set.
    destruct (String.eqb_spec (key m) (key m')) as [->%key_inj|Hne].
    + rewrite Hthis. split; [|congruence]. unfold stored.
      destruct (fragments m' calls); simpl; by rewrite Hs.
    + rewrite Hother by congruence. apply Hget.
Qed.

Lemma chain_holds calls : forall this,
  chain calls new = (this, Normal tt) -> holds calls this.
Proof.
  induction calls as [|[m value] calls IH] using rev_ind; intros this Hc.
  - injection Hc as <-. split; [done|]. split; [constructor|].
    split; [by intros k Hk; apply elem_of_nil in Hk|]. split; [done|].
    intros m. split; [done | simpl; lia].
  - rewrite chain_app in Hc.
    destruct (chain calls new) as [this1 [[]|e]] eqn:Hc1; [|done].
    rewrite chain_cons in Hc.
    destruct (body m value this1) as [this2 [[]|e]] eqn:Hb; [|done].
    injection Hc as <-. eapply body_holds; [by apply IH | done].
Qed.

(** The values of an object, key by key. *)
Lemma flat_values_by_key (o : object) :
  NoDup (keys o) ->
  flat (values o) =
  List.concat (map (fun k => flat (option_list (get o k))) (keys o)).
Proof.
  induction o as [|[k v] o IH]; intros ND; [done|].
  change (keys ((k, v) :: o)) with (k :: keys o) in *.
  apply NoDup_cons in ND as [Hk ND].
  change (values ((k, v) :: o)) with ([v] ++ values o).
  rewrite flat_app, IH by done. simpl. rewrite String.eqb_refl. f_equal.
  f_equal. apply map_ext_in. intros k' Hk'. apply list_elem_of_In in Hk'.
  destruct (String.eqb_spec k k') as [->|_]; [done | done].
Qed.

Lemma concat_map_filter {A} (g : A -> list string) (f : A -> bool) (l : list A) :
  (forall x, f x = false -> g x = []) ->
  List.concat (map g (List.filter f l)) = List.concat (map g l).
Proof.
  intros Hg. induction l as [|x l IH]; [done|]. simpl.
  destruct (f x) eqn:E; simpl; [by rewrite IH | by rewrite (Hg x E), IH].
Qed.

(** The rendering of a builder that holds the fragments of [calls]. *)
Lemma holds_stringify calls this :
  holds calls this -> stringify this = join "" (canonical calls).
Proof.
  intros (Hcx & ND & Hkeys & Hmis & Hget).
  rewrite stringify_plain by done. f_equal.
  rewrite flat_values_by_key by done.
  rewrite <- (not_misplaced_sorted names names_NoDup (keys (selectors this))) at 1;
    [|done | by intros k; apply keys_are_names | done].
  rewrite concat_map_filter.
  2:{ intros k Hk. destruct (get (selectors this) k) as [v|] eqn:E; [|done].
      apply get_Some_has, hasOwnProperty_elem_of, includes_elem_of in E. congruence. }
  unfold canonical, names. simpl. rewrite !app_nil_r.
  assert (forall m, flat (option_list (get (selectors this) (key m))) = fragments m calls)
    as Hm.
  { intros m. destruct (Hget m) as [-> Hone]. unfold stored.
    destruct (fragments m calls) as [|f fs]; [done|].
    destruct (singular m); [|unfold flat; simpl; by rewrite app_nil_r].
    simpl in Hone. destruct fs; [done | simpl in Hone; lia]. }
  by rewrite <- (Hm Element), <- (Hm Id), <- (Hm Class), <- (Hm Attr),
             <- (Hm PseudoClass), <- (Hm PseudoElement).
Qed.

(** Whatever chain of fragment calls a new builder accepts, [stringify()]
    gives the fragments kind after kind in the canonical order, those of a
    kind in the order of their insertion. *)
Lemma accepted_chain_canonical calls this :
  chain calls new = (this, Normal tt) -> stringify this = join "" (canonical calls).
Proof. intros Hc. by apply holds_stringify, chain_holds. Qed.

End accepted.

(** ** Order and repetition errors *)

Section errors.

Import CssBuilder.

Lemma key_after m m' : (rank m < rank m')%nat -> key m' ∈ drop (S (rank m)) names.
Proof.
  intros Hlt. apply list_elem_of_lookup. exists (rank m' - S (rank m))%nat.
  rewrite lookup_drop. replace (S (rank m) + (rank m' - S (rank m)))%nat with (rank m') by lia.
  apply names_rank.
Qed.

(** A key that goes last while a key of a later kind is there is misplaced. *)
Lemma misplaced_earlier (ks : list string) m m' :
  NoDup ks -> key m ∉ ks -> key m' ∈ ks -> (rank m < rank m')%nat ->
  misplaced names (ks ++ [key m]) = true.
Proof.
  intros ND Hm Hm' Hlt.
  apply (snoc_misplaced names names_NoDup (take (rank m) names)
           (drop (S (rank m)) names) ks (key m) (key m')); try done.
  - symmetry. apply take_drop_middle, names_rank.
  - by apply key_after.
Qed.

(** Operations on a builder never remove or rewrite what a singular
    method stored. *)
Lemma op_keeps_singular o this m s :
  singular m = true ->
  get (selectors this) (key m) = Some (Str s) ->
  get (selectors (apply_op o this)) (key m) = Some (Str s).
Proof.
  intros Hs Hget. destruct o as [m' value|t1 c t2]; [|done]. simpl.
  destruct (singular m') eqn:Hs'.
  - rewrite body_selectors_singular by done.
    destruct (hasOwnProperty (selectors this) (key m')) eqn:E; [done|].
    rewrite get_set. destruct (String.eqb_spec (key m') (key m)) as [Heq|_]; [|done].
    apply key_inj in Heq as ->. apply get_Some_has in Hget. congruence.
  - assert (String.eqb (key m') (key m) = false) as Hne.
    { apply String.eqb_neq. intros Heq%key_inj. congruence. }
    rewrite body_repeatable by done. simpl.
    set (o := if hasOwnProperty (selectors this) (key m') then selectors this
              else set (selectors this) (key m') (Arr [])).
    assert (get o (key m) = Some (Str s)) as Ho.
    { unfold o. destruct (hasOwnProperty _ _); [done|]. by rewrite get_set, Hne. }
    destruct (get o (key m')) as [[s'|items]|]; simpl; [done| |done].
    by rewrite get_set, Hne.
Qed.

Lemma ops_keep_singular ops this m s :
  singular m = true ->
  get (selectors this) (key m) = Some (Str s) ->
  get (selectors (apply_ops ops this)) (key m) = Some (Str s).
Proof.
  intros Hs. revert this. induction ops as [|o ops IH]; intros this Hget; [done|].
  simpl. apply IH. by apply op_keeps_singular.
Qed.

(** A repeatable method whose key is already there only extends its array:
    the keys stay as they are, and so does the outcome of [checkPosition],
    whatever kinds have been added since. *)
Lemma repeatable_again m value this :
  built this -> singular m = false ->
  hasOwnProperty (selectors this) (key m) = true ->
  keys (selectors (fst (body m value this))) = keys (selectors this) /\
  snd (body m value this) =
    if misplaced names (keys (selectors this))
    then Throw (Error positionError) else Normal tt.
Proof.
  intros Hb Hs Hhas.
  destruct (body_repeatable_built m value this Hb Hs) as (items & -> & _).
  simpl. by rewrite keys_set, Hhas.
Qed.

End errors.

(** C2, as the code has it. Once a fragment of some kind is on a builder, a
    call that adds a fragment of a strictly earlier kind throws the order
    error when the builder has no fragment of that earlier kind yet; when the
    earlier kind is singular and already there, the call throws the
    repetition error instead and leaves the builder as it was. *)
Theorem earlier_kind_rejected (this : CssBuilder.t) (m m' : method) (value : string) :
  built this ->
  hasOwnProperty (CssBuilder.selectors this) (key m') = true ->
  (rank m < rank m')%nat ->
  (hasOwnProperty (CssBuilder.selectors this) (key m) = false ->
   snd (body m value this) = Throw (Error CssBuilder.positionError)) /\
  (hasOwnProperty (CssBuilder.selectors this) (key m) = true ->
   singular m = true ->
   body m value this = (this, Throw (Error CssBuilder.repeatError))).
Proof.
  intros Hb Hm' Hlt. pose proof (built_wf _ Hb) as [ND _]. split.
  - intros Hm.
    assert (misplaced CssBuilder.names
              (keys (CssBuilder.selectors this) ++ [key m]) = true) as Hmis.
    { apply (misplaced_earlier _ m m'); try done.
      - by apply hasOwnProperty_false.
      - by apply hasOwnProperty_elem_of. }
    destruct (singular m) eqn:Hs.
    + rewrite body_singular by done. rewrite Hm. simpl.
      by rewrite keys_set, Hm, Hmis.
    + destruct (body_repeatable_built m value this Hb Hs) as (items & -> & _).
      simpl. by rewrite keys_set, Hm, Hmis.
  - intros Hm Hs. rewrite body_singular by done. by rewrite Hm.
Qed.

Lemma earlier_kind_rejected_witness :
  let this := apply_ops [Frag Class "container"; Frag PseudoClass "hover"] CssBuilder.new in
  CssBuilder.stringify this = ".container:hover" /\
  snd (body Id "main" this) = Throw (Error CssBuilder.positionError).
Proof.
  intros this. split; [reflexivity|].
  refine (proj1 (earlier_kind_rejected this Id PseudoClass "main" _ _ _) _).
  - unfold this. auto with builder.
  - reflexivity.
  - simpl. lia.
  - reflexivity.
Defined.

(** C2 as stated fails twice over: after [element] and [id], a second
    [element] throws the repetition error, not the order error; and after
    [class] and [attr], a second [class] does not throw at all. *)
Lemma earlier_kind_counterexample :
  (exists this,
     chain [(Element, "div"); (Id, "main")] CssBuilder.new = (this, Normal tt) /\
     (rank Element < rank Id)%nat /\
     snd (body Element "p" this) = Throw (Error CssBuilder.repeatError) /\
     snd (body Element "p" this) <> Throw (Error CssBuilder.positionError)) /\
  (exists this,
     chain [(Class, "a"); (Attr, "b")] CssBuilder.new = (this, Normal tt) /\
     (rank Class < rank Attr)%nat /\
     snd (body Class "c" this) = Normal tt /\
     CssBuilder.stringify (fst (body Class "c" this)) = ".a.c[b]").
Proof.
  split.
  - eexists. split; [reflexivity|]. split; [simpl; lia|]. split; [reflexivity|].
    vm_compute. discriminate.
  - eexists. split; [reflexivity|]. split; [simpl; lia|]. split; reflexivity.
Qed.

(** C3. On every builder, the first call of [element], [id] or
    [pseudoElement] stores its fragment as one string (the tag itself,
    ['#' + value], ['::' + value]); whatever is done to the builder afterwards,
    that string stays, and a second call of the same method throws the
    repetition error and changes nothing. *)
Theorem second_singular_call_rejected
    (this : CssBuilder.t) (m : method) (value : string) (ops : list op) (value' : string) :
  singular m = true ->
  hasOwnProperty (CssBuilder.selectors this) (key m) = false ->
  let this1 := fst (body m value this) in
  let this2 := apply_ops ops this1 in
  get (CssBuilder.selectors this1) (key m) = Some (Str (rendered m value)) /\
  get (CssBuilder.selectors this2) (key m) = Some (Str (rendered m value)) /\
  body m value' this2 = (this2, Throw (Error CssBuilder.repeatError)) /\
  rendered Element value = value /\
  rendered Id value = "#" +:+ value /\
  rendered PseudoElement value = "::" +:+ value.
Proof.
  intros Hs Hno this1 this2.
  assert (get (CssBuilder.selectors this1) (key m) = Some (Str (rendered m value))) as H1.
  { unfold this1. rewrite body_selectors_singular by done.
    by rewrite Hno, get_set, String.eqb_refl. }
  assert (get (CssBuilder.selectors this2) (key m) = Some (Str (rendered m value))) as H2
    by (by apply ops_keep_singular).
  split; [done|]. split; [done|]. split; [|done].
  rewrite body_singular by done. by rewrite (get_Some_has _ _ _ H2).
Qed.

Lemma second_singular_call_rejected_witness :
  let this1 := fst (body Element "div" CssBuilder.new) in
  let this2 := apply_ops [Frag Id "main"; Frag Class "a"; Comb "x" "+" "y"] this1 in
  get (CssBuilder.selectors this2) "element" = Some (Str "div") /\
  body Element "p" this2 = (this2, Throw (Error CssBuilder.repeatError)).
Proof.
  intros this1 this2.
  pose proof (second_singular_call_rejected CssBuilder.new Element "div"
                [Frag Id "main"; Frag Class "a"; Comb "x" "+" "y"] "p"
                eq_refl eq_refl) as (_ & H2 & H3 & _).
  split; [exact H2 | exact H3].
Defined.

(** ** Calls on the store *)

Section store_facts.

Implicit Types (st : store) (r : ref) (b : CssBuilder.t).

Lemma invoke_Some r (m : CssBuilder.M unit) st b :
  st !! r = Some b ->
  Obj.invoke r m st = (<[r := fst (m b)]> st, returning r (snd (m b))).
Proof.
  intros H. unfold Obj.invoke. rewrite H. by destruct (m b) as [b' [[]|e]].
Qed.

Lemma invoke_None r (m : CssBuilder.M unit) st :
  st !! r = None -> Obj.invoke r m st = (st, Throw TypeError).
Proof. intros H. unfold Obj.invoke. by rewrite H. Qed.

Lemma stringify_Some r st b :
  st !! r = Some b -> Obj.stringify r st = (st, Normal (CssBuilder.stringify b)).
Proof. intros H. unfold Obj.stringify. by rewrite H. Qed.

Lemma stringify_None r st :
  st !! r = None -> Obj.stringify r st = (st, Throw TypeError).
Proof. intros H. unfold Obj.stringify. by rewrite H. Qed.

Lemma stringify_Normal r st st' s :
  Obj.stringify r st = (st', Normal s) ->
  st' = st /\ exists b, st !! r = Some b /\ s = CssBuilder.stringify b.
Proof.
  unfold Obj.stringify. destruct (st !! r) as [b|]; [|done].
  intros [= <- <-]. eauto.
Qed.

Lemma combine_Some r item1 combination item2 st b b1 b2 :
  st !! r = Some b -> st !! item1 = Some b1 -> st !! item2 = Some b2 ->
  Obj.combine r item1 combination item2 st =
  (<[r := {| CssBuilder.selectors := CssBuilder.selectors b;
             CssBuilder.complex :=
               CssBuilder.complex b ++
               [combined (CssBuilder.stringify b1) combination (CssBuilder.stringify b2)] |}]> st,
   Normal r).
Proof.
  intros Hr H1 H2. unfold Obj.combine, mbind, Obj.H_bind, Obj.bind.
  rewrite (stringify_Some _ _ _ H1), (stringify_Some _ _ _ H2).
  by rewrite (invoke_Some _ _ _ _ Hr).
Qed.

Lemma new_spec st : Obj.new st = (st ++ [CssBuilder.new], Normal (length st)).
Proof. done. Qed.

Lemma lookup_fresh st b : (st ++ [b]) !! length st = Some b.
Proof. by rewrite lookup_app_r, Nat.sub_diag. Qed.

Lemma insert_fresh st b b' : <[length st := b']> (st ++ [b]) = st ++ [b'].
Proof.
  replace (length st) with (length st + 0)%nat at 1 by lia.
  by rewrite insert_app_r.
Qed.

(** A facade call makes a new builder after all the others and runs the
    method on it. *)
Lemma facade_call_spec m value st :
  cssSelectorBuilder.call m value st =
  (st ++ [fst (body m value CssBuilder.new)],
   returning (length st) (snd (body m value CssBuilder.new))).
Proof.
  unfold cssSelectorBuilder.call, mbind, Obj.H_bind, Obj.bind. rewrite new_spec.
  unfold Obj.call. rewrite (invoke_Some _ _ _ _ (lookup_fresh st _)).
  by rewrite insert_fresh.
Qed.

Lemma facade_combine_spec item1 combination item2 st b1 b2 :
  st !! item1 = Some b1 -> st !! item2 = Some b2 ->
  cssSelectorBuilder.combine item1 combination item2 st =
  (st ++ [ {| CssBuilder.selectors := [];
              CssBuilder.complex :=
                [combined (CssBuilder.stringify b1) combination (CssBuilder.stringify b2)] |} ],
   Normal (length st)).
Proof.
  intros H1 H2. unfold cssSelectorBuilder.combine, mbind, Obj.H_bind, Obj.bind.
  rewrite new_spec.
  rewrite (combine_Some _ _ _ _ _ CssBuilder.new b1 b2).
  - by rewrite insert_fresh.
  - apply lookup_fresh.
  - by apply lookup_app_l_Some.
  - by apply lookup_app_l_Some.
Qed.

(** The six entry points of the facade and of a builder are [call]s. *)
Lemma facade_entry_points value :
  cssSelectorBuilder.element value = cssSelectorBuilder.call Element value /\
  cssSelectorBuilder.id value = cssSelectorBuilder.call Id value /\
  cssSelectorBuilder.class value = cssSelectorBuilder.call Class value /\
  cssSelectorBuilder.attr value = cssSelectorBuilder.call Attr value /\
  cssSelectorBuilder.pseudoClass value = cssSelectorBuilder.call PseudoClass value /\
  cssSelectorBuilder.pseudoElement value = cssSelectorBuilder.call PseudoElement value.
Proof. by repeat split. Qed.

Lemma builder_entry_points r value :
  Obj.element r value = Obj.call r Element value /\
  Obj.id r value = Obj.call r Id value /\
  Obj.class r value = Obj.call r Class value /\
  Obj.attr r value = Obj.call r Attr value /\
  Obj.pseudoClass r value = Obj.call r PseudoClass value /\
  Obj.pseudoElement r value = Obj.call r PseudoElement value.
Proof. by repeat split. Qed.

Lemma exec_effect c st : effect st c (fst (exec c st)) (snd (exec c st)).
Proof.
  destruct c as [m v|i1 t i2|this m v|this i1 t i2]; simpl.
  - rewrite facade_call_spec. simpl. apply effect_made; [done|].
    intros r. by destruct (snd (body m v CssBuilder.new)); intros [= <-].
  - unfold cssSelectorBuilder.combine, mbind, Obj.H_bind, Obj.bind.
    rewrite new_spec. unfold Obj.combine, mbind, Obj.H_bind, Obj.bind, Obj.stringify.
    destruct ((st ++ [CssBuilder.new]) !! i1); simpl;
      [|by apply effect_made].
    destruct ((st ++ [CssBuilder.new]) !! i2); simpl;
      [|by apply effect_made].
    rewrite (invoke_Some _ _ _ _ (lookup_fresh st _)). simpl.
    rewrite insert_fresh. apply effect_made; [done | by intros r [= <-]].
  - unfold Obj.call. destruct (st !! this) as [b|] eqn:E.
    + rewrite (invoke_Some _ _ _ _ E). simpl.
      eapply effect_changed; [done | done |].
      intros r. by destruct (snd (body m v b)); intros [= <-].
    + rewrite (invoke_None _ _ _ E). by eapply effect_none.
  - unfold Obj.combine, mbind, Obj.H_bind, Obj.bind, Obj.stringify.
    destruct (st !! i1); simpl; [|by eapply effect_none].
    destruct (st !! i2); simpl; [|by eapply effect_none].
    destruct (st !! this) as [b|] eqn:E.
    + rewrite (invoke_Some _ _ _ _ E). simpl.
      eapply effect_changed; [done | done | by intros r [= <-]].
    + rewrite (invoke_None _ _ _ E). by eapply effect_none.
Qed.

(** A call changes no builder but the one it is made on, and removes none. *)
Lemma exec_frame c st r :
  (r < length st)%nat -> receiver c <> Some r -> fst (exec c st) !! r = st !! r.
Proof.
  intros Hr Hrecv.
  destruct (exec_effect c st) as [b res _ _|r' b b' res Hc _ _|r' e _].
  - by rewrite lookup_app_l.
  - rewrite list_lookup_insert_ne; [done | congruence].
  - done.
Qed.

Lemma exec_length c st : (length st <= length (fst (exec c st)))%nat.
Proof.
  destruct (exec_effect c st) as [b res _ _|r' b b' res _ _ _|r' e _].
  - rewrite length_app. lia.
  - by rewrite length_insert.
  - done.
Qed.

Lemma run_length calls st : (length st <= length (run calls st))%nat.
Proof.
  revert st. induction calls as [|c calls IH]; intros st; simpl; [done|].
  etransitivity; [apply exec_length | apply IH].
Qed.

(** A reference a call returns refers to a builder. *)
Lemma exec_Normal c st st' r :
  exec c st = (st', Normal r) -> (r < length st')%nat.
Proof.
  intros Hc. pose proof (exec_effect c st) as He. rewrite Hc in He. simpl in He.
  inversion He as [b res _ Hr|r' b b' res _ Hb Hr|]; subst.
  - rewrite (Hr r eq_refl), length_app. simpl. lia.
  - rewrite (Hr r eq_refl), length_insert. by eapply lookup_lt_Some.
Qed.

(** A facade call returns a reference to a builder that was not there, and
    leaves those that were in place. *)
Lemma exec_fresh c st st' r :
  receiver c = None -> exec c st = (st', Normal r) ->
  r = length st /\ st !! r = None /\ take (length st) st' = st.
Proof.
  intros Hrecv Hc. pose proof (exec_effect c st) as He. rewrite Hc in He. simpl in He.
  inversion He as [b res _ Hr|r' b b' res Hr' _ _|r' e Hr']; subst; try congruence.
  rewrite (Hr r eq_refl). split; [done|]. split; [by apply lookup_ge_None_2|].
  by rewrite take_app_length.
Qed.

(** The store after a facade call that returned: the one before, and the
    new builder after it, which is the one the reference refers to. *)
Lemma exec_made c st st' r :
  receiver c = None -> exec c st = (st', Normal r) ->
  r = length st /\ exists b, st' = st ++ [b].
Proof.
  intros Hrecv Hc. pose proof (exec_effect c st) as He. rewrite Hc in He. simpl in He.
  inversion He as [b res _ Hr|r' b b' res Hr' _ _|r' e Hr']; subst; try congruence.
  split; [by apply Hr | by exists b].
Qed.

(** On a new builder no fragment method throws. *)
Lemma body_new_Normal m value : snd (body m value CssBuilder.new) = Normal tt.
Proof. by destruct m. Qed.

End store_facts.

(** From a [stringify()] that returned: the builder it was called on. *)
Ltac stringified H b Hb :=
  apply stringify_Normal in H as (_ & b & Hb & ->).

(** ** combine *)

(** C4. For any two selectors [item1] and [item2] and any combinator token,
    [combine(item1, token, item2).stringify()] is [item1.stringify()], a
    space, the token, a space and [item2.stringify()]; with the token [' ']
    that makes three spaces between the operands. An operand may itself be
    the result of [combine], and the nested example in the comment above the
    class comes out as written there. *)
Theorem combine_stringify :
  (forall (st : store) (item1 item2 : ref) (combination text1 text2 : string),
     Obj.stringify item1 st = (st, Normal text1) ->
     Obj.stringify item2 st = (st, Normal text2) ->
     exists st' c,
       cssSelectorBuilder.combine item1 combination item2 st = (st', Normal c) /\
       Obj.stringify item1 st' = (st', Normal text1) /\
       Obj.stringify item2 st' = (st', Normal text2) /\
       Obj.stringify c st' =
         (st', Normal (text1 +:+ " " +:+ combination +:+ " " +:+ text2)) /\
       (combination = " " ->
        Obj.stringify c st' = (st', Normal (text1 +:+ "   " +:+ text2)))) /\
  snd (reference_example []) =
    Normal "div#main.container.draggable + table#data ~ tr:nth-of-type(even)   td:nth-of-type(even)".
Proof.
  split; [|by vm_compute].
  intros st item1 item2 combination text1 text2 H1 H2.
  stringified H1 b1 Hb1.
  stringified H2 b2 Hb2.
  eexists _, _. split; [by apply facade_combine_spec|].
  split; [by apply stringify_Some, lookup_app_l_Some|].
  split; [by apply stringify_Some, lookup_app_l_Some|].
  rewrite (stringify_Some _ _ _ (lookup_fresh st _)). split; [done|].
  by intros ->.
Qed.

Lemma combine_stringify_witness :
  let st := run [FCall Element "tr"; FCall Element "td"] [] in
  Obj.stringify 0%nat st = (st, Normal "tr") /\
  Obj.stringify 1%nat st = (st, Normal "td") /\
  exists st' c,
    cssSelectorBuilder.combine 0%nat " " 1%nat st = (st', Normal c) /\
    Obj.stringify c st' = (st', Normal "tr   td").
Proof.
  intros st. split; [reflexivity|]. split; [reflexivity|].
  destruct (proj1 combine_stringify st 0%nat 1%nat " " "tr" "td" eq_refl eq_refl)
    as (st' & c & Hc & _ & _ & _ & Hs).
  exists st', c. split; [exact Hc | exact (Hs eq_refl)].
Defined.

(** ** What has been combined stays *)

Section combined_text.

Import CssBuilder.

Lemma stringify_combined this :
  complex this <> [] -> stringify this = join "" (complex this).
Proof. unfold stringify. by destruct (complex this). Qed.

(** Only [combine] on a builder changes what it has combined. *)
Lemma exec_keeps_complex c (st : store) r b :
  st !! r = Some b ->
  (forall this item1 combination item2,
     c = MCombine this item1 combination item2 -> this <> r) ->
  exists b', fst (exec c st) !! r = Some b' /\ complex b' = complex b.
Proof.
  intros Hb Hc. pose proof (lookup_lt_Some _ _ _ Hb) as Hlt.
  destruct (decide (receiver c = Some r)) as [Hrecv|Hrecv].
  - destruct c as [m v|i1 t i2|this m v|this i1 t i2]; try discriminate Hrecv.
    + injection Hrecv as ->. simpl. unfold Obj.call.
      rewrite (invoke_Some _ _ _ _ Hb). simpl.
      rewrite list_lookup_insert_eq by done. eexists. split; [done|].
      apply body_complex.
    + injection Hrecv as ->. by destruct (Hc r i1 t i2).
  - exists b. by rewrite exec_frame.
Qed.

Lemma run_keeps_complex calls : forall (st : store) r b,
  st !! r = Some b ->
  (forall this item1 combination item2,
     MCombine this item1 combination item2 ∈ calls -> this <> r) ->
  exists b', run calls st !! r = Some b' /\ complex b' = complex b.
Proof.
  induction calls as [|c calls IH]; intros st r b Hb Hc; [by exists b|].
  simpl. destruct (exec_keeps_complex c st r b Hb) as (b1 & Hb1 & Hcx).
  { intros this i1 t i2 ->. apply (Hc this i1 t i2). left. }
  destruct (IH _ r b1 Hb1) as (b' & Hb' & Hcx').
  { intros this i1 t i2 Hin. apply (Hc this i1 t i2). by right. }
  exists b'. split; [done | congruence].
Qed.

End combined_text.

(** C5, as the code has it. [combine] renders its two operands when it is
    called and keeps the text: whatever is done afterwards to the operands
    or to any other builder, and whatever fragments are added to the combined
    selector itself, its [stringify()] keeps returning the text made from the
    operands as they were at the time of the [combine] call; only a further
    [combine] on it changes that. *)
Theorem combine_keeps_its_text
    (st : store) (item1 item2 : ref) (combination text1 text2 : string)
    (calls : list call) :
  Obj.stringify item1 st = (st, Normal text1) ->
  Obj.stringify item2 st = (st, Normal text2) ->
  (forall this i1 t i2, MCombine this i1 t i2 ∈ calls -> this <> length st) ->
  let c := length st in
  let st1 := fst (cssSelectorBuilder.combine item1 combination item2 st) in
  let st2 := run calls st1 in
  snd (cssSelectorBuilder.combine item1 combination item2 st) = Normal c /\
  Obj.stringify c st2 =
    (st2, Normal (text1 +:+ " " +:+ combination +:+ " " +:+ text2)).
Proof.
  intros H1 H2 Hcalls c st1 st2.
  stringified H1 b1 Hb1.
  stringified H2 b2 Hb2.
  unfold st2, st1, c.
  rewrite (facade_combine_spec _ _ _ _ _ _ Hb1 Hb2). simpl. split; [done|].
  edestruct (run_keeps_complex calls) as (b' & Hb' & Hcx);
    [apply lookup_fresh | exact Hcalls |].
  rewrite (stringify_Some _ _ _ Hb'). do 2 f_equal.
  rewrite stringify_combined; rewrite Hcx; done.
Qed.

Lemma combine_keeps_its_text_witness :
  let st := run [FCall Element "div"; FCall Element "p"] [] in
  let st2 := run [MCall 0%nat Id "x"; MCall 1%nat Class "y"; MCall 2%nat Class "z"]
                 (fst (cssSelectorBuilder.combine 0%nat "+" 1%nat st)) in
  Obj.stringify 0%nat st2 = (st2, Normal "div#x") /\
  Obj.stringify 2%nat st2 = (st2, Normal "div + p").
Proof.
  intros st st2. split; [reflexivity|].
  refine (proj2 (combine_keeps_its_text st 0%nat 1%nat "+" "div" "p"
            [MCall 0%nat Id "x"; MCall 1%nat Class "y"; MCall 2%nat Class "z"]
            eq_refl eq_refl _)).
  intros this i1 t i2 Hin.
  repeat (apply elem_of_cons in Hin as [Hin|Hin]; [discriminate Hin|]).
  by apply elem_of_nil in Hin.
Defined.

(** C5 as stated fails: after [c = combine(div, '+', p)], giving [div] an id
    changes [div.stringify()] but not [c.stringify()], which is no longer the
    text made from the operands as they are now. *)
Lemma combine_is_not_recomputed :
  let st := run [FCall Element "div"; FCall Element "p";
                 FCombine 0%nat "+" 1%nat; MCall 0%nat Id "x"] [] in
  Obj.stringify 0%nat st = (st, Normal "div#x") /\
  Obj.stringify 1%nat st = (st, Normal "p") /\
  Obj.stringify 2%nat st = (st, Normal "div + p") /\
  combined "div#x" "+" "p" = "div#x + p" /\
  "div + p" <> "div#x + p".
Proof. repeat split; done. Qed.

(** C6, as the code has it. [combine] may be called on any builder on which
    [combine] has not been called before: whatever fragments that builder
    holds, the [stringify()] of what [combine] returns (the builder itself) is
    made of the two operands and the token only, and is what [combine] on a
    new builder gives for the same operands. *)
Theorem combine_ignores_fragments
    (st : store) (this item1 item2 : ref) (combination text1 text2 : string)
    (b : CssBuilder.t) :
  st !! this = Some b ->
  CssBuilder.complex b = [] ->
  Obj.stringify item1 st = (st, Normal text1) ->
  Obj.stringify item2 st = (st, Normal text2) ->
  exists st1 st2 fresh,
    Obj.combine this item1 combination item2 st = (st1, Normal this) /\
    cssSelectorBuilder.combine item1 combination item2 st = (st2, Normal fresh) /\
    Obj.stringify this st1 =
      (st1, Normal (text1 +:+ " " +:+ combination +:+ " " +:+ text2)) /\
    Obj.stringify fresh st2 =
      (st2, Normal (text1 +:+ " " +:+ combination +:+ " " +:+ text2)).
Proof.
  intros Hb Hcx H1 H2.
  stringified H1 b1 Hb1.
  stringified H2 b2 Hb2.
  eexists _, _, _. split; [by eapply combine_Some|].
  split; [by eapply facade_combine_spec|].
  pose proof (lookup_lt_Some _ _ _ Hb) as Hlt.
  rewrite (stringify_Some _ _ _ (list_lookup_insert_eq _ _ _ Hlt)).
  rewrite (stringify_Some _ _ _ (lookup_fresh st _)).
  by rewrite Hcx.
Qed.

Lemma combine_ignores_fragments_witness :
  let st := run [FCall Element "a"; FCall Element "b"; FCall Id "main"; MCall 2%nat Class "c"] [] in
  Obj.stringify 2%nat st = (st, Normal "#main.c") /\
  exists st1 st2 fresh,
    Obj.combine 2%nat 0%nat "~" 1%nat st = (st1, Normal 2%nat) /\
    cssSelectorBuilder.combine 0%nat "~" 1%nat st = (st2, Normal fresh) /\
    Obj.stringify 2%nat st1 = (st1, Normal "a ~ b") /\
    Obj.stringify fresh st2 = (st2, Normal "a ~ b").
Proof.
  intros st. split; [reflexivity|].
  exact (combine_ignores_fragments st 2%nat 0%nat 1%nat "~" "a" "b" _
           eq_refl eq_refl eq_refl eq_refl).
Defined.

(** C6 as stated fails on a builder that [combine] has already been called
    on: the new text is added after the earlier one, so the result is not
    what [combine] on a new builder gives for the same operands. *)
Lemma combine_on_combined_receiver :
  let st := run [FCall Element "x"; FCall Element "y"; FCall Element "a";
                 FCall Element "b"; FCombine 0%nat "+" 1%nat] [] in
  let st1 := fst (Obj.combine 4%nat 2%nat "~" 3%nat st) in
  let st2 := fst (cssSelectorBuilder.combine 2%nat "~" 3%nat st) in
  snd (Obj.combine 4%nat 2%nat "~" 3%nat st) = Normal 4%nat /\
  snd (cssSelectorBuilder.combine 2%nat "~" 3%nat st) = Normal 5%nat /\
  Obj.stringify 4%nat st1 = (st1, Normal "x + ya ~ b") /\
  Obj.stringify 5%nat st2 = (st2, Normal "a ~ b") /\
  "x + ya ~ b" <> "a ~ b".
Proof. repeat split; done. Qed.

(** C8. [stringify()] never throws: a reference that any call has returned,
    after any sequence of calls through the facade and on the builders it
    gave, stringifies to a string, then and after any further calls. *)
Theorem stringify_never_throws
    (calls : list call) (c : call) (more : list call) (st1 : store) (r : ref) :
  exec c (run calls []) = (st1, Normal r) ->
  let st2 := run more st1 in
  exists s, Obj.stringify r st2 = (st2, Normal s).
Proof.
  intros Hc st2. apply exec_Normal in Hc.
  pose proof (run_length more st1) as Hlen.
  destruct (lookup_lt_is_Some_2 st2 r) as [b Hb]; [unfold st2; lia|].
  exists (CssBuilder.stringify b). by apply stringify_Some.
Qed.

Lemma stringify_never_throws_witness :
  let st1 := fst (exec (MCall 0%nat Id "main") (run [FCall Class "a"] [])) in
  let st2 := run [MCall 0%nat Element "div"; MCombine 0%nat 0%nat ">" 0%nat] st1 in
  snd (exec (MCall 0%nat Id "main") (run [FCall Class "a"] [])) =
    Throw (Error CssBuilder.positionError) /\
  exists s, Obj.stringify 0%nat st2 = (st2, Normal s).
Proof.
  intros st1 st2. split; [reflexivity|].
  exact (stringify_never_throws [] (FCall Class "a")
           [MCall 0%nat Id "main"; MCall 0%nat Element "div";
            MCombine 0%nat 0%nat ">" 0%nat] _ 0%nat eq_refl).
Defined.

(** ** Builders do not share state *)

Section independence.

Lemma insert_insert_same (st : store) r (b b' : CssBuilder.t) :
  <[r := b']> (<[r := b]> st) = <[r := b']> st.
Proof.
  revert r. induction st as [|x st IH]; intros [|r]; simpl; try done.
  by rewrite IH.
Qed.

(** A chain on a builder in the store is the chain on the builder. *)
Lemma chain_on_spec calls : forall (st : store) r b,
  st !! r = Some b ->
  chain_on r calls st =
  (<[r := fst (chain calls b)]> st, returning r (snd (chain calls b))).
Proof.
  induction calls as [|[m value] calls IH]; intros st r b Hb.
  - simpl. unfold mret, Obj.H_ret, Obj.ret. by rewrite list_insert_id.
  - simpl chain_on. unfold mbind, Obj.H_bind, Obj.bind, Obj.call.
    rewrite (invoke_Some _ _ _ _ Hb), chain_cons.
    pose proof (lookup_lt_Some _ _ _ Hb) as Hlt.
    destruct (body m value b) as [b1 [[]|e]]; simpl; [|done].
    rewrite (IH _ r b1) by (by apply list_lookup_insert_eq).
    by rewrite insert_insert_same.
Qed.

Lemma facade_chain_spec m value calls (st : store) :
  snd (facade_chain m value calls st) =
  match chain ((m, value) :: calls) CssBuilder.new with
  | (b, Normal _) => Normal (CssBuilder.stringify b)
  | (_, Throw e) => Throw e
  end.
Proof.
  unfold facade_chain, mbind, Obj.H_bind, Obj.bind.
  rewrite facade_call_spec, chain_cons.
  destruct (body m value CssBuilder.new) as [b1 [[]|e]]; simpl; [|done].
  rewrite (chain_on_spec calls _ _ b1) by apply lookup_fresh.
  rewrite insert_fresh.
  destruct (chain calls b1) as [b [[]|e]]; simpl; [|done].
  by rewrite (stringify_Some _ _ _ (lookup_fresh st _)).
Qed.

Lemma run_frame calls : forall (st : store) r,
  (r < length st)%nat ->
  (forall c, c ∈ calls -> receiver c <> Some r) ->
  run calls st !! r = st !! r.
Proof.
  induction calls as [|c calls IH]; intros st r Hr Hc; [done|].
  simpl. rewrite IH.
  - apply exec_frame; [done|]. apply Hc. left.
  - pose proof (exec_length c st). lia.
  - intros c' Hc'. apply Hc. by right.
Qed.

(** Through the facade, on any store: a chain in the canonical order
    stringifies to its fragments in that order. *)
Lemma facade_chain_canonical m value calls (st : store) :
  respects_order ((m, value) :: calls) ->
  snd (facade_chain m value calls st) =
  Normal (join "" (canonical ((m, value) :: calls))).
Proof.
  intros Hord. rewrite facade_chain_spec.
  destruct (chain_new_tidy _ Hord) as (this & -> & ->).
  by rewrite canonical_sorted.
Qed.

End independence.

(** C9. The facade keeps no state and builders share none. Calls made
    through the facade or on other builders leave a builder as it is:
    same fragments, same combined texts, same [stringify()]. A facade call
    that returns gives a reference that did not exist before; the store
    afterwards is the one before with one more builder, the one the reference
    refers to, which stringifies, is left as it is by every later call that
    is not made on it, and whose own later calls leave the others as they
    were. The same chain of calls, started from the facade, stringifies
    to the same text (or throws the same error) whatever other builders
    exist; so does [combine] of operands that stringify alike. Every
    fragment call on the facade returns, with the builder a new one becomes
    by that call whatever the store holds, and so does [combine] on the
    facade for operands that are builders. The reference a facade call
    returns is none of those any call returned before. *)
Theorem builders_are_independent :
  (forall (st : store) (calls : list call) (r : ref),
     (r < length st)%nat ->
     (forall c, c ∈ calls -> receiver c <> Some r) ->
     run calls st !! r = st !! r /\
     snd (Obj.stringify r (run calls st)) = snd (Obj.stringify r st)) /\
  (forall (st st' : store) (c : call) (r : ref),
     receiver c = None -> exec c st = (st', Normal r) ->
     r = length st /\ st !! r = None /\ take (length st) st' = st /\
     exists b,
       st' = st ++ [b] /\ st' !! r = Some b /\
       Obj.stringify r st' = (st', Normal (CssBuilder.stringify b)) /\
       (forall calls,
          (forall c', c' ∈ calls -> receiver c' <> Some r) ->
          run calls st' !! r = Some b) /\
       (forall calls r0,
          (r0 < length st)%nat ->
          (forall c', c' ∈ calls -> receiver c' <> Some r0) ->
          run calls st' !! r0 = st !! r0)) /\
  (forall (st1 st2 : store) (m : method) (value : string)
          (calls : list (method * string)),
     snd (facade_chain m value calls st1) = snd (facade_chain m value calls st2)) /\
  (forall (st1 st2 : store) (a1 b1 a2 b2 : ref) (combination texta textb : string),
     Obj.stringify a1 st1 = (st1, Normal texta) ->
     Obj.stringify b1 st1 = (st1, Normal textb) ->
     Obj.stringify a2 st2 = (st2, Normal texta) ->
     Obj.stringify b2 st2 = (st2, Normal textb) ->
     snd ((c ← cssSelectorBuilder.combine a1 combination b1; Obj.stringify c) st1) =
     snd ((c ← cssSelectorBuilder.combine a2 combination b2; Obj.stringify c) st2)) /\
  (forall (st : store) (m : method) (value : string),
     exec (FCall m value) st =
     (st ++ [fst (body m value CssBuilder.new)], Normal (length st))) /\
  (forall (st : store) (item1 item2 : ref) (combination : string)
          (b1 b2 : CssBuilder.t),
     st !! item1 = Some b1 -> st !! item2 = Some b2 ->
     exec (FCombine item1 combination item2) st =
     (st ++ [ {| CssBuilder.selectors := [];
                 CssBuilder.complex :=
                   [combined (CssBuilder.stringify b1) combination
                             (CssBuilder.stringify b2)] |} ],
      Normal (length st))) /\
  (forall (calls : list call) (c0 : call) (st0 : store) (r0 : ref)
          (more : list call) (c : call) (st' : store) (r : ref),
     exec c0 (run calls []) = (st0, Normal r0) ->
     receiver c = None -> exec c (run more st0) = (st', Normal r) ->
     r <> r0).
Proof.
  split; [|split; [|split; [|split; [|split; [|split]]]]].
  - intros st calls r Hr Hc.
    pose proof (run_frame calls st r Hr Hc) as Hsame. split; [done|].
    unfold Obj.stringify. rewrite Hsame. by destruct (st !! r).
  - intros st st' c r Hrecv Hc.
    destruct (exec_made c st st' r Hrecv Hc) as (-> & b & ->).
    split; [done|]. split; [by apply lookup_ge_None_2|].
    split; [by rewrite take_app_length|].
    exists b. split; [done|]. split; [apply lookup_fresh|].
    split; [apply stringify_Some, lookup_fresh|]. split.
    + intros calls Hcalls. rewrite run_frame; [apply lookup_fresh| |done].
      rewrite length_app. simpl. lia.
    + intros calls r0 Hr0 Hcalls. rewrite run_frame; [by rewrite lookup_app_l| |done].
      rewrite length_app. lia.
  - intros st1 st2 m value calls. by rewrite !facade_chain_spec.
  - intros st1 st2 a1 b1 a2 b2 combination texta textb Ha1 Hb1 Ha2 Hb2.
    stringified Ha1 ba1 Hba1.
    stringified Hb1 bb1 Hbb1.
    apply stringify_Normal in Ha2 as (_ & ba2 & Hba2 & Ea).
    apply stringify_Normal in Hb2 as (_ & bb2 & Hbb2 & Eb).
    unfold mbind, Obj.H_bind, Obj.bind.
    rewrite (facade_combine_spec _ _ _ _ _ _ Hba1 Hbb1),
            (facade_combine_spec _ _ _ _ _ _ Hba2 Hbb2).
    rewrite !(stringify_Some _ _ _ (lookup_fresh _ _)). simpl.
    by rewrite Ea, Eb.
  - intros st m value. simpl. by rewrite facade_call_spec, body_new_Normal.
  - intros st item1 item2 combination b1 b2 H1 H2. by apply facade_combine_spec.
  - intros calls c0 st0 r0 more c st' r Hc0 Hrecv Hc.
    apply exec_Normal in Hc0.
    pose proof (run_length more st0) as Hlen.
    destruct (exec_made c _ st' r Hrecv Hc) as (-> & _). lia.
Qed.

Lemma builders_are_independent_witness :
  let st := run [FCall Element "div"; FCall Class "a"] [] in
  let st' := run [MCall 1%nat Attr "b"; FCall Id "x"; MCombine 1%nat 0%nat "+" 2%nat] st in
  let made := exec (FCombine 0%nat ">" 1%nat) st' in
  (st' !! 0%nat = st !! 0%nat /\
   snd (Obj.stringify 0%nat st') = Normal "div" /\
   snd (Obj.stringify 1%nat st') = Normal "div + #x") /\
  snd made = Normal 3%nat /\
  snd (Obj.stringify 3%nat (fst made)) = Normal "div > div + #x" /\
  exists b,
    fst made = st' ++ [b] /\ fst made !! 3%nat = Some b /\
    Obj.stringify 3%nat (fst made) = (fst made, Normal (CssBuilder.stringify b)) /\
    run [MCall 0%nat Id "y"; MCombine 1%nat 3%nat "~" 3%nat] (fst made) !! 3%nat = Some b.
Proof.
  intros st st' made. split.
  - destruct (proj1 builders_are_independent st
                [MCall 1%nat Attr "b"; FCall Id "x"; MCombine 1%nat 0%nat "+" 2%nat]
                0%nat) as [H1 H2].
    + simpl. lia.
    + intros c Hc.
      repeat (apply elem_of_cons in Hc as [->|Hc]; [discriminate|]).
      by apply elem_of_nil in Hc.
    + split; [exact H1|]. split; [exact H2 | reflexivity].
  - split; [reflexivity|]. split; [reflexivity|].
    destruct (proj1 (proj2 builders_are_independent) st' (fst made)
                (FCombine 0%nat ">" 1%nat) 3%nat eq_refl eq_refl)
      as (_ & _ & _ & b & Hst & Hb & Hs & Hkeep & _).
    exists b. split; [exact Hst|]. split; [exact Hb|]. split; [exact Hs|].
    apply Hkeep. intros c Hc.
    repeat (apply elem_of_cons in Hc as [->|Hc]; [discriminate|]).
    by apply elem_of_nil in Hc.
Defined.

(** C10. Once [combine] has been called on a builder, [stringify()]
    returns the combined texts joined and nothing else: the fragments the
    builder holds do not show, whether they were added before the [combine]
    call or are added after it. The fragment methods go on working on such a
    builder: a call completes as it would if nothing had been combined, and
    returns the builder. *)
Theorem combined_hides_fragments
    (st : store) (this : ref) (b : CssBuilder.t)
    (frags : list (method * string)) (m : method) (value : string) :
  st !! this = Some b ->
  CssBuilder.complex b <> [] ->
  let st1 := run (map (fun c => MCall this (fst c) (snd c)) frags) st in
  Obj.stringify this st = (st, Normal (join "" (CssBuilder.complex b))) /\
  Obj.stringify this st1 = (st1, Normal (join "" (CssBuilder.complex b))) /\
  exists b1,
    st1 !! this = Some b1 /\
    snd (Obj.call this m value st1) =
      returning this
        (snd (body m value {| CssBuilder.selectors := CssBuilder.selectors b1;
                              CssBuilder.complex := [] |})).
Proof.
  intros Hb Hcx st1.
  destruct (run_keeps_complex (map (fun c => MCall this (fst c) (snd c)) frags)
              st this b Hb) as (b1 & Hb1 & Hcx1).
  { intros this' i1 t i2 Hin. apply list_elem_of_fmap in Hin as ([m' v'] & Heq & _).
    discriminate Heq. }
  split; [|split].
  - rewrite (stringify_Some _ _ _ Hb). by rewrite stringify_combined.
  - unfold st1. rewrite (stringify_Some _ _ _ Hb1).
    rewrite stringify_combined; by rewrite Hcx1.
  - exists b1. split; [done|]. unfold Obj.call.
    rewrite (invoke_Some _ _ _ _ Hb1). simpl. f_equal.
    destruct (singular m) eqn:Hs.
    + rewrite !body_singular by done. simpl.
      by destruct (hasOwnProperty _ _).
    + rewrite !body_repeatable by done. simpl.
      by destruct (get _ _) as [[|]|].
Qed.

Lemma combined_hides_fragments_witness :
  let st := run [FCall Element "a"; FCall Element "b"; FCall Id "main";
                 MCombine 2%nat 0%nat ">" 1%nat] [] in
  let st1 := run [MCall 2%nat Class "c"; MCall 2%nat Attr "d"] st in
  Obj.stringify 2%nat st1 = (st1, Normal "a > b") /\
  snd (Obj.call 2%nat PseudoClass "hover" st1) = Normal 2%nat.
Proof.
  intros st st1.
  destruct (combined_hides_fragments st 2%nat _ [(Class, "c"); (Attr, "d")]
              PseudoClass "hover" eq_refl) as (_ & H1 & b1 & Hb1 & H2).
  - discriminate.
  - split; [exact H1|]. injection Hb1 as <-. exact H2.
Defined.

(** ** A rectangle through JSON and back *)

Section rounding.

Variables prec emax : Z.

Lemma shr_1_nonneg mrs : (0 <= shr_m mrs)%Z -> (0 <= shr_m (shr_1 mrs))%Z.
Proof.
  destruct mrs as [m r s]. simpl. intros Hm.
  destruct m as [|[p|p|]|[p|p|]]; simpl; lia.
Qed.

Lemma iter_shr_1_nonneg p : forall mrs,
  (0 <= shr_m mrs)%Z -> (0 <= shr_m (SpecFloat.iter_pos shr_1 p mrs))%Z.
Proof.
  induction p as [p IH|p IH|]; intros mrs Hm; simpl.
  - apply IH, IH. by apply shr_1_nonneg.
  - by apply IH, IH.
  - by apply shr_1_nonneg.
Qed.

Lemma shr_fexp_nonneg m e l :
  (0 <= m)%Z -> (0 <= shr_m (fst (shr_fexp prec emax m e l)))%Z.
Proof.
  intros Hm. unfold shr_fexp, shr.
  assert (0 <= shr_m (shr_record_of_loc m l))%Z as H0
    by (destruct l as [|[]]; exact Hm).
  destruct (fexp prec emax (Zdigits2 m + e) - e)%Z; simpl; try exact H0.
  by apply iter_shr_1_nonneg.
Qed.

Lemma round_nearest_even_nonneg m l : (0 <= m)%Z -> (0 <= round_nearest_even m l)%Z.
Proof.
  intros Hm. unfold round_nearest_even.
  destruct l as [|[]]; try lia. destruct (Z.even m); lia.
Qed.

Lemma binary_round_aux_not_nan sx mx ex lx :
  (0 <= mx)%Z -> binary_round_aux prec emax sx mx ex lx <> S754_nan.
Proof.
  intros Hm. unfold binary_round_aux.
  pose proof (shr_fexp_nonneg mx ex lx Hm) as H1.
  destruct (shr_fexp prec emax mx ex lx) as [mrs' e']. simpl in H1.
  pose proof (shr_fexp_nonneg _ e' loc_Exact
                (round_nearest_even_nonneg _ (loc_of_shr_record mrs') H1)) as H2.
  destruct (shr_fexp prec emax _ e' loc_Exact) as [mrs'' e'']. simpl in H2.
  destruct (shr_m mrs'') as [|m|m]; [discriminate| |lia].
  destruct (e'' <=? emax - prec)%Z; discriminate.
Qed.

Lemma SFeqb_refl x : x <> S754_nan -> SFeqb x x = true.
Proof.
  intros Hx. unfold SFeqb, SFcompare.
  destruct x as [s|s| |s m e]; try done.
  - by destruct s.
  - rewrite Z.compare_refl, Pos.compare_cont_refl. by destruct s.
Qed.

End rounding.

(** A finite double is a zero or has a mantissa and an exponent; what comes
    back for it is the same double, or [+0] for [-0]. *)
Lemma read_back_spec x :
  finite x = true ->
  (Prim2SF x = S754_zero true /\ Prim2SF (read_back x) = S754_zero false) \/
  (read_back x = x /\
   (Prim2SF x = S754_zero false \/ exists s m e, Prim2SF x = S754_finite s m e)).
Proof.
  unfold finite, read_back. rewrite FloatAxioms.classify_spec. unfold SF64classify, SFclassify.
  destruct (Prim2SF x) as [[]|[]| |[] m e] eqn:E; try done; intros _.
  - by left.
  - right. eauto.
  - right. split; [|eauto].
    by destruct (Z.eqb _ _).
  - right. split; [|eauto].
    by destruct (Z.eqb _ _).
Qed.

(** The product of the doubles that come back is, as a number, the product
    of the doubles that went in: the same double, or a zero for a zero. *)
Lemma read_back_mul w h :
  finite w = true -> finite h = true ->
  PrimFloat.eqb (read_back w * read_back h) (w * h) = true.
Proof.
  intros Hw Hh. rewrite FloatAxioms.eqb_spec, !FloatAxioms.mul_spec. unfold SF64mul.
  destruct (read_back_spec w Hw) as [[Ew Ew'] | [Ew' Ew]];
    destruct (read_back_spec h Hh) as [[Eh Eh'] | [Eh' Eh]];
    rewrite ?Ew', ?Eh'.
  - by rewrite Ew, Eh.
  - rewrite Ew. by destruct Eh as [-> | (s & m & e & ->)].
  - rewrite Eh. by destruct Ew as [-> | (s & m & e & ->)].
  - destruct Ew as [-> | (s & m & e & ->)], Eh as [-> | (s' & m' & e' & ->)];
      try done.
    apply SFeqb_refl. by apply binary_round_aux_not_nan.
Qed.

(** C7, as the code has it. For a rectangle-like object whose [width] and
    [height] are finite numbers, written in that order,
    [fromJSON(Rectangle.prototype, getJSON({width, height}))] is a Rectangle
    with the same width and height (a negative zero comes back as 0), and its
    [getArea()] equals [width * height], the [getArea()] of the original: the
    two are equal as numbers, and the same double unless a negative zero is
    involved. *)
Theorem rectangle_round_trip (w h : float) :
  finite w = true -> finite h = true ->
  let original := new_Rectangle [JSON.Number w; JSON.Number h] in
  let r := fromJSON Rectangle_prototype
             (getJSON [("width", JSON.Number w); ("height", JSON.Number h)]) in
  width r = JSON.Number (read_back w) /\
  height r = JSON.Number (read_back h) /\
  PrimFloat.eqb (getArea r) (w * h) = true /\
  PrimFloat.eqb (getArea r) (getArea original) = true /\
  (classify w <> NZero -> classify h <> NZero -> getArea r = (w * h)%float).
Proof.
  intros Hw Hh original r.
  assert (width r = JSON.Number (read_back w)) as Hrw.
  { unfold r, fromJSON, getJSON, read_back, finite in *. simpl.
    unfold JSON.write_number. by destruct (classify w). }
  assert (height r = JSON.Number (read_back h)) as Hrh.
  { unfold r, fromJSON, getJSON, read_back, finite in *. simpl.
    unfold JSON.write_number. by destruct (classify h). }
  assert (getArea r = (read_back w * read_back h)%float) as Ha
    by (unfold getArea; by rewrite Hrw, Hrh).
  split; [done|]. split; [done|]. rewrite Ha.
  split; [by apply read_back_mul|]. split; [by apply read_back_mul|].
  intros Hzw Hzh. unfold read_back.
  by destruct (classify w), (classify h).
Qed.

Lemma rectangle_round_trip_witness :
  let r := fromJSON Rectangle_prototype
             (getJSON [("width", JSON.Number 10); ("height", JSON.Number 20)]) in
  getArea r = 200%float /\
  PrimFloat.eqb (getArea r)
    (getArea (new_Rectangle [JSON.Number 10; JSON.Number 20])) = true.
Proof.
  intros r.
  destruct (rectangle_round_trip 10 20 eq_refl eq_refl) as (_ & _ & _ & H2 & H).
  split; [|exact H2]. apply H; by vm_compute.
Defined.

(** C7 as stated fails for a width that is not finite: [Infinity] is written
    [null], comes back as [null], and the area of the reconstructed
    rectangle is [0], not the [Infinity] of the original. *)
Lemma rectangle_round_trip_infinity :
  let original := new_Rectangle [JSON.Number infinity; JSON.Number 2] in
  let r := fromJSON Rectangle_prototype
             (getJSON [("width", JSON.Number infinity); ("height", JSON.Number 2)]) in
  getArea original = infinity /\
  width r = JSON.Null /\
  getArea r = 0%float /\
  PrimFloat.eqb (getArea r) (getArea original) = false.
Proof. repeat split; reflexivity. Qed.

(** The constructor takes the values by position: with the keys written in
    the other order, the height lands in [width] and the width in [height]. *)
Lemma rectangle_key_order (w h : float) :
  finite w = true -> finite h = true ->
  let r := fromJSON Rectangle_prototype
             (getJSON [("height", JSON.Number h); ("width", JSON.Number w)]) in
  width r = JSON.Number (read_back h) /\ height r = JSON.Number (read_back w).
Proof.
  intros Hw Hh r. unfold r, fromJSON, getJSON, read_back, finite in *. simpl.
  unfold JSON.write_number. by destruct (classify w), (classify h).
Qed.

(** * Further properties *)

(** ** The order check and the shape of a builder *)

Section shape.

Import CssBuilder.

Lemma filter_is_sublist {A} (f : A -> bool) (l : list A) : sublist (List.filter f l) l.
Proof.
  induction l as [|x l IH]; simpl; [constructor|].
  destruct (f x); by constructor.
Qed.

(** Distinct keys taken from [ns] pass the test of [checkPosition] exactly
    when they stand in the order of [ns]. *)
Lemma misplaced_iff_sublist (ns ks : list string) :
  NoDup ns -> NoDup ks -> (forall k, k ∈ ks -> k ∈ ns) ->
  misplaced ns ks = false <-> sublist ks ns.
Proof.
  intros NDns NDks Hsub. split.
  - intros Hmis. rewrite <- (not_misplaced_sorted ns NDns ks NDks Hsub Hmis).
    apply filter_is_sublist.
  - by apply sublist_not_misplaced.
Qed.

Lemma hasOwnProperty_includes (o : object) k :
  hasOwnProperty o k = includes (keys o) k.
Proof.
  destruct (includes (keys o) k) eqn:E.
  - by apply hasOwnProperty_elem_of, includes_elem_of.
  - apply hasOwnProperty_false. intros H%includes_elem_of. congruence.
Qed.

(** What a fragment method leaves in [this.selectors], on a builder. *)
Lemma body_selectors_repeatable m value this :
  built this -> singular m = false ->
  exists items,
    selectors (fst (body m value this)) =
      set (selectors this) (key m) (Arr (items ++ [rendered m value])) /\
    (forall v, get (selectors this) (key m) = Some v -> v = Arr items).
Proof.
  intros Hb Hs.
  destruct (body_repeatable_built m value this Hb Hs) as (items & -> & Hitems).
  exists items. split; [done|]. intros v Hv.
  rewrite (get_Some_has _ _ _ Hv) in Hitems. congruence.
Qed.

(** The keys are keys of methods, each once; under the key of a singular
    method there is the one string a call of it stored, under the key of a
    repeatable method an array that is not empty. *)
Lemma built_shape this :
  built this ->
  NoDup (keys (selectors this)) /\
  (forall k, k ∈ keys (selectors this) -> k ∈ names) /\
  (forall m v, get (selectors this) (key m) = Some v ->
     if singular m then exists value, v = Str (rendered m value)
     else exists items, v = Arr items /\ items <> []).
Proof.
  intros Hb. split; [by apply built_wf|].
  induction Hb as [|[m value|t1 c t2] this Hb [Hk Hv]].
  - split; [by intros k Hin; apply elem_of_nil in Hin | by intros m v H].
  - assert (forall v',
              selectors (apply_op (Frag m value) this) = set (selectors this) (key m) v' ->
              (if singular m then exists value, v' = Str (rendered m value)
               else exists items, v' = Arr items /\ items <> []) ->
              (forall k, k ∈ keys (selectors (apply_op (Frag m value) this)) -> k ∈ names) /\
              (forall m0 v, get (selectors (apply_op (Frag m value) this)) (key m0) = Some v ->
                 if singular m0 then exists value, v = Str (rendered m0 value)
                 else exists items, v = Arr items /\ items <> [])) as Hset.
    { intros v' Hsel Hv'. rewrite Hsel. split.
      - intros k. rewrite keys_set. destruct (hasOwnProperty _ _); [apply Hk|].
        intros [Hin| ->%list_elem_of_singleton]%elem_of_app; [by apply Hk|].
        eapply list_elem_of_lookup_2, names_rank.
      - intros m0 v. rewrite get_set.
        destruct (String.eqb_spec (key m) (key m0)) as [->%key_inj|_]; [|apply Hv].
        by intros [= <-]. }
    simpl in *. destruct (singular m) eqn:Hs.
    + rewrite body_selectors_singular in * by done.
      destruct (hasOwnProperty (selectors this) (key m)); [done|].
      apply (Hset _ eq_refl). eauto.
    + destruct (body_selectors_repeatable m value this Hb Hs) as (items & E & _).
      apply (Hset _ E). exists (items ++ [rendered m value]).
      split; [done|]. by destruct items.
  - done.
Qed.

Lemma checkPosition_built this :
  built this ->
  (misplaced names (keys (selectors this)) = false <->
   sublist (keys (selectors this)) names).
Proof.
  intros Hb. destruct (built_shape this Hb) as (ND & Hk & _).
  by apply misplaced_iff_sublist; [apply names_NoDup | |].
Qed.

End shape.

(** X1. On a builder, [checkPosition] changes nothing and returns exactly
    when the keys of [this.selectors], in the order in which they were first
    added, are in the order of [this.names] (they form a subsequence of it);
    otherwise it throws the order error. *)
Theorem checkPosition_accepts (this : CssBuilder.t) :
  built this ->
  fst (CssBuilder.checkPosition this) = this /\
  (snd (CssBuilder.checkPosition this) = Normal tt <->
   sublist (keys (CssBuilder.selectors this)) CssBuilder.names) /\
  (~ sublist (keys (CssBuilder.selectors this)) CssBuilder.names ->
   snd (CssBuilder.checkPosition this) = Throw (Error CssBuilder.positionError)).
Proof.
  intros Hb. rewrite checkPosition_eq. simpl. split; [done|].
  pose proof (checkPosition_built this Hb) as Hiff.
  destruct (misplaced CssBuilder.names (keys (CssBuilder.selectors this))) eqn:E.
  - split; [|done]. split; [done|]. intros H%Hiff. congruence.
  - split; [by split; [intros _; apply Hiff|]|]. intros Hn. destruct Hn. by apply Hiff.
Qed.

Lemma checkPosition_accepts_witness :
  let this := apply_ops [Frag Id "main"; Frag Class "a"; Frag Attr "b"; Frag Class "c"]
                        CssBuilder.new in
  keys (CssBuilder.selectors this) = ["id"; "class"; "attr"] /\
  snd (CssBuilder.checkPosition this) = Normal tt.
Proof.
  intros this. split; [reflexivity|].
  apply (proj1 (proj2 (checkPosition_accepts this (built_ops _ _ built_new)))).
  change (sublist ["id"; "class"; "attr"] CssBuilder.names).
  unfold CssBuilder.names. repeat constructor.
Defined.

(** X2. What every builder keeps, whatever calls were made on it and
    whether they threw: the keys of [this.selectors] are among [this.names]
    and each occurs once; [element], [id] and [pseudoElement] hold the one
    string a call stored; [class], [attr] and [pseudoClass] hold an array
    that is never empty. *)
Theorem builder_invariant (this : CssBuilder.t) :
  built this ->
  NoDup (keys (CssBuilder.selectors this)) /\
  (forall k, k ∈ keys (CssBuilder.selectors this) -> k ∈ CssBuilder.names) /\
  (length (keys (CssBuilder.selectors this)) <= 6)%nat /\
  (forall m v, get (CssBuilder.selectors this) (key m) = Some v ->
     if singular m then exists value, v = Str (rendered m value)
     else exists items, v = Arr items /\ items <> []).
Proof.
  intros Hb. destruct (built_shape this Hb) as (ND & Hk & Hv).
  split; [done|]. split; [done|]. split; [|done].
  change 6%nat with (length CssBuilder.names).
  by apply submseteq_length, NoDup_submseteq.
Qed.

Lemma builder_invariant_witness :
  let this := apply_ops [Frag Class "a"; Frag Id "x"; Frag Id "y"; Frag Class "b";
                         Comb "p" ">" "q"] CssBuilder.new in
  get (CssBuilder.selectors this) "class" = Some (Arr [".a"; ".b"]) /\
  NoDup (keys (CssBuilder.selectors this)) /\
  (length (keys (CssBuilder.selectors this)) <= 6)%nat.
Proof.
  intros this. split; [reflexivity|].
  destruct (builder_invariant this (built_ops _ _ built_new)) as (ND & _ & Hlen & _).
  split; [exact ND | exact Hlen].
Defined.

(** ** How a fragment call ends *)

Section outcomes.

Import CssBuilder.

Lemma errors_differ : repeatError <> positionError.
Proof. discriminate. Qed.

Lemma flat_values_set (o : object) k v s :
  s ∈ flat [v] -> s ∈ flat (values (set o k v)).
Proof.
  intros Hs. induction o as [|[k' v'] o IH]; simpl; [done|].
  destruct (String.eqb k' k).
  - change (values ((k', v) :: o)) with ([v] ++ values o).
    rewrite flat_app. apply elem_of_app. by left.
  - change (values ((k', v') :: set o k v)) with ([v'] ++ values (set o k v)).
    rewrite flat_app. apply elem_of_app. by right.
Qed.

(** The two ways through a fragment method: stopped by [checkValue], or
    past the insertion and into [checkPosition]. *)
Lemma body_cases m value this :
  built this ->
  (singular m = true /\ hasOwnProperty (selectors this) (key m) = true /\
   body m value this = (this, Throw (Error repeatError))) \/
  (exists v,
     (singular m = false \/ hasOwnProperty (selectors this) (key m) = false) /\
     rendered m value ∈ flat [v] /\
     body m value this =
       (let this' := {| selectors := set (selectors this) (key m) v;
                        complex := complex this |} in
        (this', if misplaced names (keys (selectors this'))
                then Throw (Error positionError) else Normal tt))).
Proof.
  intros Hb. destruct (singular m) eqn:Hs.
  - rewrite body_singular by done.
    destruct (hasOwnProperty (selectors this) (key m)) eqn:Hhas; [by left|].
    right. exists (Str (rendered m value)). split; [by right|]. split; [|done].
    apply list_elem_of_singleton. done.
  - destruct (body_repeatable_built m value this Hb Hs) as (items & -> & _).
    right. exists (Arr (items ++ [rendered m value])). split; [by left|].
    split; [|done]. unfold flat. simpl. rewrite app_nil_r.
    apply elem_of_app. right. by apply list_elem_of_singleton.
Qed.

(** After any operation the keys are those before, with at most one more
    at the end. *)
Lemma apply_op_keys o this :
  built this ->
  exists more, keys (selectors (apply_op o this)) = keys (selectors this) ++ more.
Proof.
  intros Hb. destruct o as [m value|t1 c t2]; [|by exists []; rewrite app_nil_r].
  simpl. destruct (body_cases m value this Hb) as [(_ & _ & ->)|(v & _ & _ & ->)].
  - exists []. by rewrite app_nil_r.
  - simpl. rewrite keys_set. destruct (hasOwnProperty _ _); [|by eexists].
    exists []. by rewrite app_nil_r.
Qed.

Lemma apply_ops_keys ops : forall this,
  built this ->
  exists more, keys (selectors (apply_ops ops this)) = keys (selectors this) ++ more.
Proof.
  induction ops as [|o ops IH]; intros this Hb; [by exists []; rewrite app_nil_r|].
  simpl. destruct (apply_op_keys o this Hb) as [more1 E1].
  destruct (IH (apply_op o this)) as [more2 E2]; [by constructor|].
  exists (more1 ++ more2). by rewrite E2, E1, app_assoc.
Qed.

Lemma sublist_app_inv_l {A} (l more ns : list A) :
  sublist (l ++ more) ns -> sublist l ns.
Proof. intros H. etransitivity; [|exact H]. by apply sublist_inserts_r. Qed.

End outcomes.

(** X3. A fragment method called on a builder ends in one of three ways
    and never otherwise. If it is [element], [id] or [pseudoElement] and its
    key is there, it throws the repetition error and the builder is as
    before. If not, the fragment is stored, nothing combined is touched, and
    the call returns when the keys are then in the order of [this.names] and
    throws the order error when they are not: the fragment stays stored even
    then. *)
Theorem fragment_call_outcomes (this : CssBuilder.t) (m : method) (value : string) :
  built this ->
  (singular m = true /\ hasOwnProperty (CssBuilder.selectors this) (key m) = true ->
   body m value this = (this, Throw (Error CssBuilder.repeatError))) /\
  (singular m = false \/ hasOwnProperty (CssBuilder.selectors this) (key m) = false ->
   (snd (body m value this) = Normal tt \/
    snd (body m value this) = Throw (Error CssBuilder.positionError)) /\
   (snd (body m value this) = Normal tt <->
    sublist (keys (CssBuilder.selectors (fst (body m value this)))) CssBuilder.names) /\
   rendered m value ∈ flat (values (CssBuilder.selectors (fst (body m value this)))) /\
   CssBuilder.complex (fst (body m value this)) = CssBuilder.complex this) /\
  CssBuilder.repeatError <> CssBuilder.positionError.
Proof.
  intros Hb. split; [|split; [|exact errors_differ]].
  - intros [Hs Hhas].
    destruct (body_cases m value this Hb) as [(_ & _ & E)|(v & [H|H] & _)];
      [done | congruence | congruence].
  - intros Hnot.
    pose proof (checkPosition_built _ (built_op (Frag m value) this Hb)) as Hiff.
    simpl in Hiff.
    destruct (body_cases m value this Hb) as [(Hs & Hhas & _)|(v & _ & Hv & E)].
    { destruct Hnot; congruence. }
    rewrite E in *. simpl in *.
    destruct (misplaced CssBuilder.names _) eqn:Hmis.
    + split; [by right|]. split; [|split; [by apply flat_values_set | done]].
      split; [done|]. intros H%Hiff. done.
    + split; [by left|]. split; [|split; [by apply flat_values_set | done]].
      split; [intros _; by apply Hiff | done].
Qed.

Lemma fragment_call_outcomes_witness :
  let this := apply_ops [Frag Class "a"] CssBuilder.new in
  snd (body Id "x" this) = Throw (Error CssBuilder.positionError) /\
  ("#x" : string) ∈ flat (values (CssBuilder.selectors (fst (body Id "x" this)))) /\
  CssBuilder.stringify (fst (body Id "x" this)) = ".a#x".
Proof.
  intros this.
  destruct (fragment_call_outcomes this Id "x" (built_ops _ _ built_new))
    as (_ & H & _).
  destruct (H (or_intror eq_refl)) as (_ & _ & Hin & _).
  split; [reflexivity|]. split; [exact Hin | reflexivity].
Defined.

(** X4. An order error is final. Once a fragment call on a builder has
    thrown the order error, every later fragment call on that builder throws
    too, the repetition error or the order error, whatever else has been
    called on it in between: the builder has to be given up. *)
Theorem order_error_is_final
    (this0 : CssBuilder.t) (m0 : method) (value0 : string)
    (ops : list op) (m : method) (value : string) :
  built this0 ->
  snd (body m0 value0 this0) = Throw (Error CssBuilder.positionError) ->
  let this := apply_ops ops (fst (body m0 value0 this0)) in
  ~ sublist (keys (CssBuilder.selectors this)) CssBuilder.names /\
  (snd (body m value this) = Throw (Error CssBuilder.repeatError) \/
   snd (body m value this) = Throw (Error CssBuilder.positionError)).
Proof.
  intros Hb0 Hthrow this.
  assert (built (fst (body m0 value0 this0))) as Hb1
    by exact (built_op (Frag m0 value0) this0 Hb0).
  assert (~ sublist (keys (CssBuilder.selectors (fst (body m0 value0 this0))))
            CssBuilder.names) as Hbad1.
  { intros Hsub%(checkPosition_built _ Hb1).
    destruct (body_cases m0 value0 this0 Hb0) as [(_ & _ & E)|(v & _ & _ & E)];
      rewrite E in *; simpl in *.
    - injection Hthrow as Hthrow. by apply errors_differ.
    - by rewrite Hsub in Hthrow. }
  assert (built this) as Hb by (by apply built_ops).
  assert (~ sublist (keys (CssBuilder.selectors this)) CssBuilder.names) as Hbad.
  { unfold this. destruct (apply_ops_keys ops _ Hb1) as [more ->].
    intros H%sublist_app_inv_l. by apply Hbad1. }
  split; [done|].
  assert (~ sublist (keys (CssBuilder.selectors (fst (body m value this))))
            CssBuilder.names) as Hbad'.
  { destruct (apply_op_keys (Frag m value) this Hb) as [more E]. simpl in E.
    rewrite E. intros H%sublist_app_inv_l. by apply Hbad. }
  pose proof (checkPosition_built _ (built_op (Frag m value) this Hb)) as Hiff.
  simpl in Hiff.
  destruct (body_cases m value this Hb) as [(_ & _ & E)|(v & _ & _ & E)];
    rewrite E in *; simpl in *; [by left|]. right.
  destruct (misplaced CssBuilder.names _); [done|].
  destruct Hbad'. by apply Hiff.
Qed.

Lemma order_error_is_final_witness :
  let this := apply_ops [Frag Class "b"; Comb "p" "+" "q"]
                (fst (body Element "div" (apply_ops [Frag Class "a"] CssBuilder.new))) in
  snd (body PseudoElement "after" this) = Throw (Error CssBuilder.positionError).
Proof.
  intros this.
  destruct (order_error_is_final (apply_ops [Frag Class "a"] CssBuilder.new)
              Element "div" [Frag Class "b"; Comb "p" "+" "q"] PseudoElement "after"
              (built_ops _ _ built_new) eq_refl) as [_ [H|H]].
  - discriminate H.
  - exact H.
Defined.

(** ** The chains a new builder accepts *)

Section acceptance.

Import CssBuilder.

Lemma first_keys_snoc calls m value :
  first_keys (calls ++ [(m, value)]) =
  if includes (first_keys calls) (key m) then first_keys calls
  else first_keys calls ++ [key m].
Proof. unfold first_keys. by rewrite fold_left_app. Qed.

Lemma chain_built calls : forall this, built this -> built (fst (chain calls this)).
Proof.
  induction calls as [|[m value] calls IH]; intros this Hb; [done|].
  rewrite chain_cons.
  pose proof (built_op (Frag m value) this Hb) as Hb1. simpl in Hb1.
  destruct (body m value this) as [this1 [[]|e]]; [by apply IH | done].
Qed.

(** The keys after an accepted call. *)
Lemma body_Normal_keys m value this this' :
  built this -> body m value this = (this', Normal tt) ->
  keys (selectors this') =
    (if includes (keys (selectors this)) (key m) then keys (selectors this)
     else keys (selectors this) ++ [key m]) /\
  sublist (keys (selectors this')) names.
Proof.
  intros Hb Hbody.
  pose proof (checkPosition_built _ (built_op (Frag m value) this Hb)) as Hiff.
  simpl in Hiff. rewrite Hbody in Hiff. simpl in Hiff.
  destruct (body_cases m value this Hb) as [(_ & _ & E)|(v & _ & _ & E)];
    rewrite E in Hbody; [done|]. simpl in Hbody.
  destruct (misplaced names _) eqn:Hmis; [done|]. injection Hbody as <-.
  simpl in *. split; [|by apply Hiff].
  by rewrite keys_set, hasOwnProperty_includes.
Qed.

(** After an accepted chain the keys are those of the calls, in the order
    of their first call. *)
Lemma chain_keys calls : forall this,
  chain calls new = (this, Normal tt) -> keys (selectors this) = first_keys calls.
Proof.
  induction calls as [|[m value] calls IH] using rev_ind; intros this Hc.
  - by injection Hc as <-.
  - rewrite chain_app in Hc.
    destruct (chain calls new) as [this1 [[]|e]] eqn:Hc1; [|done].
    rewrite chain_cons in Hc.
    destruct (body m value this1) as [this2 [[]|e]] eqn:Hb; [|done].
    injection Hc as <-.
    assert (built this1) as Hb1.
    { pose proof (chain_built calls new built_new) as H. by rewrite Hc1 in H. }
    destruct (body_Normal_keys m value this1 this2 Hb1 Hb) as [-> _].
    by rewrite first_keys_snoc, (IH this1 eq_refl).
Qed.

(** A chain is accepted when no singular method is called twice and the
    keys, in the order of their first call, are in the order of [names]. *)
Lemma chain_accepted calls :
  (forall m, singular m = true -> (length (fragments m calls) <= 1)%nat) ->
  sublist (first_keys calls) names ->
  exists this, chain calls new = (this, Normal tt).
Proof.
  induction calls as [|[m value] calls IH] using rev_ind; intros Hone Hsub.
  - by exists new.
  - destruct IH as [this1 Hc1].
    { intros m' Hs'. specialize (Hone m' Hs').
      rewrite fragments_app, length_app in Hone. lia. }
    { rewrite first_keys_snoc in Hsub.
      destruct (includes _ _); [done | by eapply sublist_app_inv_l]. }
    assert (built this1) as Hb1.
    { pose proof (chain_built calls new built_new) as H. by rewrite Hc1 in H. }
    pose proof (chain_keys calls this1 Hc1) as Hkeys.
    destruct (chain_holds calls this1 Hc1) as (_ & _ & _ & _ & Hget).
    rewrite chain_app, Hc1, chain_cons.
    pose proof (checkPosition_built _ (built_op (Frag m value) this1 Hb1)) as Hiff.
    simpl in Hiff.
    destruct (body_cases m value this1 Hb1) as [(Hs & Hhas & _)|(v & _ & _ & E)].
    + (* a singular method called a second time *)
      exfalso. specialize (Hone m Hs).
      rewrite fragments_app, fragments_cons, bool_decide_eq_true_2, length_app in Hone
        by done.
      apply has_get_Some in Hhas as [v Hv].
      rewrite (proj1 (Hget m)) in Hv.
      destruct (fragments m calls); [done | simpl in Hone; lia].
    + rewrite E in *. simpl in *.
      rewrite keys_set, hasOwnProperty_includes, Hkeys,
        <- (first_keys_snoc calls m value) in Hiff.
      apply Hiff in Hsub.
      rewrite keys_set, hasOwnProperty_includes, Hkeys,
        <- (first_keys_snoc calls m value), Hsub.
      by eexists.
Qed.

End acceptance.

(** X5. What a new builder accepts. A chain of fragment calls goes through
    without a throw exactly when [element], [id] and [pseudoElement] are each
    called at most once and the kinds, taken in the order in which each is
    first called, are in the canonical order; calls of a repeatable kind may
    come back after later kinds. The keys of [this.selectors] are then those
    of the calls in the order of their first call. *)
Theorem chain_accepted_iff (calls : list (method * string)) :
  (exists this, chain calls CssBuilder.new = (this, Normal tt)) <->
  (forall m, singular m = true -> (length (fragments m calls) <= 1)%nat) /\
  sublist (first_keys calls) CssBuilder.names.
Proof.
  split.
  - intros [this Hc].
    destruct (chain_holds calls this Hc) as (_ & ND & Hk & Hmis & Hget).
    split; [intros m; apply Hget|].
    rewrite <- (chain_keys calls this Hc).
    apply misplaced_iff_sublist; [apply names_NoDup | done | | done].
    intros k [m ->]%Hk. eapply list_elem_of_lookup_2, names_rank.
  - intros [Hone Hsub]. by apply chain_accepted.
Qed.

(** X6. What an accepted chain renders. Whatever chain of fragment calls a
    new builder has accepted, [stringify()] gives the fragments kind after
    kind in the canonical order, those of one kind in the order of their
    calls, with nothing between them; so two accepted chains that add the
    same fragments of each kind render alike, however the kinds were
    interleaved. *)
Theorem accepted_chain_rendering
    (calls calls' : list (method * string)) (this this' : CssBuilder.t) :
  chain calls CssBuilder.new = (this, Normal tt) ->
  chain calls' CssBuilder.new = (this', Normal tt) ->
  CssBuilder.stringify this = join "" (canonical calls) /\
  keys (CssBuilder.selectors this) = first_keys calls /\
  ((forall m, fragments m calls = fragments m calls') ->
   CssBuilder.stringify this = CssBuilder.stringify this').
Proof.
  intros Hc Hc'.
  assert (CssBuilder.stringify this = join "" (canonical calls)) as Hs
    by (by apply holds_stringify, chain_holds).
  assert (CssBuilder.stringify this' = join "" (canonical calls')) as Hs'
    by (by apply holds_stringify, chain_holds).
  split; [done|]. split; [by apply chain_keys|].
  intros Hsame. rewrite Hs, Hs'. unfold canonical. simpl.
  by rewrite !Hsame.
Qed.

Lemma accepted_chain_rendering_witness :
  exists this this',
    chain [(Class, "a"); (Attr, "b"); (Class, "c"); (Attr, "d")] CssBuilder.new
      = (this, Normal tt) /\
    chain [(Class, "a"); (Class, "c"); (Attr, "b"); (Attr, "d")] CssBuilder.new
      = (this', Normal tt) /\
    CssBuilder.stringify this = ".a.c[b][d]" /\
    CssBuilder.stringify this = CssBuilder.stringify this'.
Proof.
  eexists _, _. split; [reflexivity|]. split; [reflexivity|].
  destruct (accepted_chain_rendering
              [(Class, "a"); (Attr, "b"); (Class, "c"); (Attr, "d")]
              [(Class, "a"); (Class, "c"); (Attr, "b"); (Attr, "d")]
              _ _ eq_refl eq_refl) as (_ & _ & H).
  split; [reflexivity|]. apply H. by intros [].
Defined.

(** ** combine, again and through the facade *)

(** X7. [combine] on a builder that has already combined adds its text
    after what is there: [stringify()] afterwards is [stringify()] before,
    followed without a separator by the text of the two operands and the
    token; the receiver is returned and its fragments are not touched. *)
Theorem combine_appends
    (st : store) (this item1 item2 : ref) (combination text1 text2 : string)
    (b : CssBuilder.t) :
  st !! this = Some b ->
  CssBuilder.complex b <> [] ->
  Obj.stringify item1 st = (st, Normal text1) ->
  Obj.stringify item2 st = (st, Normal text2) ->
  exists st' b',
    Obj.combine this item1 combination item2 st = (st', Normal this) /\
    st' !! this = Some b' /\
    CssBuilder.selectors b' = CssBuilder.selectors b /\
    Obj.stringify this st' =
      (st', Normal (CssBuilder.stringify b +:+
                    (text1 +:+ " " +:+ combination +:+ " " +:+ text2))).
Proof.
  intros Hb Hcx H1 H2.
  stringified H1 b1 Hb1.
  stringified H2 b2 Hb2.
  pose proof (lookup_lt_Some _ _ _ Hb) as Hlt.
  eexists _, _. split; [by eapply combine_Some|].
  split; [by apply list_lookup_insert_eq|]. split; [done|].
  rewrite (stringify_Some _ _ _ (list_lookup_insert_eq _ _ _ Hlt)).
  do 2 f_equal. rewrite (stringify_combined b Hcx).
  rewrite stringify_combined by (simpl; by destruct (CssBuilder.complex b)).
  simpl. by rewrite join_app.
Qed.

Lemma combine_appends_witness :
  let st := run [FCall Element "a"; FCall Element "b"; FCombine 0%nat "+" 1%nat] [] in
  Obj.stringify 2%nat st = (st, Normal "a + b") /\
  exists st',
    Obj.combine 2%nat 1%nat ">" 0%nat st = (st', Normal 2%nat) /\
    Obj.stringify 2%nat st' = (st', Normal "a + bb > a").
Proof.
  intros st. split; [reflexivity|].
  destruct (combine_appends st 2%nat 1%nat 0%nat ">" "b" "a" _ eq_refl)
    as (st' & b' & Hc & _ & _ & Hs); [discriminate | reflexivity | reflexivity |].
  exists st'. split; [exact Hc | exact Hs].
Defined.

(** X8. A fragment call on the facade never throws: whatever the method
    and the value, it returns a new builder, after all the others in the
    store, that holds the one fragment under the one key and stringifies to
    it. *)
Theorem facade_call_succeeds (m : method) (value : string) (st : store) :
  exists b,
    cssSelectorBuilder.call m value st = (st ++ [b], Normal (length st)) /\
    keys (CssBuilder.selectors b) = [key m] /\
    CssBuilder.complex b = [] /\
    Obj.stringify (length st) (st ++ [b]) = (st ++ [b], Normal (rendered m value)).
Proof.
  exists (fst (body m value CssBuilder.new)). rewrite facade_call_spec.
  rewrite (stringify_Some _ _ _ (lookup_fresh st _)).
  by destruct m.
Qed.

(** ** Rectangles and JSON, at the edges *)

Section json_edges.

Lemma Prim2SF_zero : Prim2SF 0 = S754_zero false.
Proof. reflexivity. Qed.

Lemma Prim2SF_nan : Prim2SF nan = S754_nan.
Proof. reflexivity. Qed.

(** What is written for a number reads back as a number written the same. *)
Lemma write_number_again x :
  match JSON.write_number x with
  | JSON.LNull => True
  | JSON.LNumber y => JSON.write_number y = JSON.LNumber y
  end.
Proof.
  unfold JSON.write_number. destruct (classify x) eqn:E; try done;
    unfold JSON.write_number; by rewrite ?E.
Qed.

(** The product of 0 and a double that came back is a zero. *)
Lemma zero_mul_read_back h :
  finite h = true ->
  PrimFloat.eqb (0 * read_back h) 0 = true /\
  PrimFloat.eqb (read_back h * 0) 0 = true.
Proof.
  intros Hh. rewrite !FloatAxioms.eqb_spec, !FloatAxioms.mul_spec, Prim2SF_zero.
  unfold SF64mul.
  destruct (read_back_spec h Hh) as [[_ ->] | [-> [-> | (s & m & e & ->)]]]; done.
Qed.

Lemma mul_nan x : classify (x * nan) = FloatClass.NaN.
Proof.
  rewrite FloatAxioms.classify_spec, FloatAxioms.mul_spec, Prim2SF_nan.
  unfold SF64mul. by destruct (Prim2SF x).
Qed.

End json_edges.

(** X9. The reconstruction is by position, not by name: for an object
    written with [height] before [width], both finite, [fromJSON] gives a
    Rectangle whose [width] is the height that was written and whose [height]
    is the width. *)
Theorem rectangle_by_position (w h : float) :
  finite w = true -> finite h = true ->
  let r := fromJSON Rectangle_prototype
             (getJSON [("height", JSON.Number h); ("width", JSON.Number w)]) in
  width r = JSON.Number (read_back h) /\
  height r = JSON.Number (read_back w) /\
  r = fromJSON Rectangle_prototype
        (getJSON [("width", JSON.Number h); ("height", JSON.Number w)]).
Proof.
  intros Hw Hh r. unfold r, fromJSON, getJSON, read_back, finite in *. simpl.
  unfold JSON.write_number. by destruct (classify w), (classify h).
Qed.

Lemma rectangle_by_position_witness :
  let r := fromJSON Rectangle_prototype
             (getJSON [("height", JSON.Number 20); ("width", JSON.Number 10)]) in
  width r = JSON.Number 20 /\ height r = JSON.Number 10.
Proof.
  intros r.
  destruct (rectangle_by_position 10 20 eq_refl eq_refl) as (H1 & H2 & _).
  split; [exact H1 | exact H2].
Defined.

(** X10. One round trip is enough: when neither [width] nor [height] is
    [undefined], writing the reconstructed Rectangle with [getJSON] gives the
    very text it was reconstructed from, also for values that do not survive
    the trip (NaN and the infinities, written [null]; a negative zero, written
    [0]). *)
Theorem getJSON_fromJSON_getJSON (v1 v2 : JSON.jsval) :
  v1 <> JSON.Undefined -> v2 <> JSON.Undefined ->
  let json := getJSON [("width", v1); ("height", v2)] in
  getJSON (own_properties (fromJSON Rectangle_prototype json)) = json.
Proof.
  intros H1 H2 json. unfold json, getJSON, fromJSON, own_properties.
  destruct v1 as [| |x1]; [done| |]; destruct v2 as [| |x2]; try done; simpl;
    try (pose proof (write_number_again x1) as W1;
         destruct (JSON.write_number x1); simpl; rewrite ?W1);
    try (pose proof (write_number_again x2) as W2;
         destruct (JSON.write_number x2); simpl; rewrite ?W2);
    done.
Qed.

Lemma getJSON_fromJSON_getJSON_witness :
  let json := getJSON [("width", JSON.Number nan); ("height", JSON.Number (-0))] in
  json = [("width", JSON.LNull); ("height", JSON.LNumber 0)] /\
  getJSON (own_properties (fromJSON Rectangle_prototype json)) = json.
Proof.
  intros json. split; [reflexivity|].
  apply (getJSON_fromJSON_getJSON (JSON.Number nan) (JSON.Number (-0))); discriminate.
Defined.

(** X11. A width or a height that is NaN or an infinity is written [null],
    comes back as [null] and counts as 0 in [getArea()]: with the other one
    finite, the area of the reconstructed Rectangle is zero. *)
Theorem rectangle_not_finite (w h : float) :
  finite w = false -> finite h = true ->
  let r1 := fromJSON Rectangle_prototype
              (getJSON [("width", JSON.Number w); ("height", JSON.Number h)]) in
  let r2 := fromJSON Rectangle_prototype
              (getJSON [("width", JSON.Number h); ("height", JSON.Number w)]) in
  width r1 = JSON.Null /\ height r2 = JSON.Null /\
  PrimFloat.eqb (getArea r1) 0 = true /\
  PrimFloat.eqb (getArea r2) 0 = true.
Proof.
  intros Hw Hh r1 r2.
  assert (JSON.write_number w = JSON.LNull) as Ew
    by (unfold JSON.write_number, finite in *; by destruct (classify w)).
  assert (JSON.write_number h = JSON.LNumber (read_back h)) as Eh
    by (unfold JSON.write_number, read_back, finite in *; by destruct (classify h)).
  destruct (zero_mul_read_back h Hh) as [Z1 Z2].
  unfold r1, r2, fromJSON, getJSON, getArea. simpl. rewrite Ew, Eh. simpl.
  by repeat split.
Qed.

Lemma rectangle_not_finite_witness :
  let r := fromJSON Rectangle_prototype
             (getJSON [("width", JSON.Number nan); ("height", JSON.Number 5)]) in
  width r = JSON.Null /\ PrimFloat.eqb (getArea r) 0 = true.
Proof.
  intros r.
  destruct (rectangle_not_finite nan 5 eq_refl eq_refl) as (H1 & _ & H3 & _).
  split; [exact H1 | exact H3].
Defined.

(** X12. A property that holds [undefined] is not written at all, so what
    follows moves one place up: for [{width: undefined, height}] with a
    finite height, the height lands in [width], [height] is [undefined], and
    [getArea()] is NaN. *)
Theorem rectangle_undefined_width (h : float) :
  finite h = true ->
  let r := fromJSON Rectangle_prototype
             (getJSON [("width", JSON.Undefined); ("height", JSON.Number h)]) in
  getJSON [("width", JSON.Undefined); ("height", JSON.Number h)] =
    [("height", JSON.LNumber (read_back h))] /\
  width r = JSON.Number (read_back h) /\
  height r = JSON.Undefined /\
  classify (getArea r) = FloatClass.NaN.
Proof.
  intros Hh r.
  assert (JSON.write_number h = JSON.LNumber (read_back h)) as Eh
    by (unfold JSON.write_number, read_back, finite in *; by destruct (classify h)).
  unfold r, fromJSON, getJSON, getArea. simpl. rewrite Eh. simpl.
  split; [done|]. split; [done|]. split; [done|]. apply mul_nan.
Qed.

Lemma rectangle_undefined_width_witness :
  let r := fromJSON Rectangle_prototype
             (getJSON [("width", JSON.Undefined); ("height", JSON.Number 7)]) in
  width r = JSON.Number 7 /\ height r = JSON.Undefined /\
  classify (getArea r) = FloatClass.NaN.
Proof.
  intros r.
  destruct (rectangle_undefined_width 7 eq_refl) as (_ & H1 & H2 & H3).
  split; [exact H1|]. split; [exact H2 | exact H3].
Defined.
